(** * Shor factoring notebook: the classical post-processing cell

    Shallow embedding of the code cell [small-marijuana] of the Shor
    notebook: the sampling of the base, the co-primality gate, and the
    period-to-factor resolver that follows the measurement (the
    continued-fraction step, the doubling of an odd candidate, the
    modular exponentiation, the two gcds, the composite-correction pass
    and the final verdict).

    Python integers are [Z].  Python exceptions are the left summand of
    ExtLib's error monad [sum exn].  Python floats are IEEE 754 binary64
    values, modelled exactly as [mant * 2 ^ expo] with round-to-nearest,
    ties-to-even. *)

From Stdlib Require Import ZArith Znumtheory Lia Bool List SpecFloat.
From Stdlib Require String.
From ExtLib Require Import Structures.Monad Structures.MonadExc.
From ExtLib Require Import Data.Monads.EitherMonad.
Import ListNotations.
Import MonadNotation.
Local Open Scope monad_scope.
Local Open Scope Z_scope.

(** ** Exceptions *)

Inductive exn : Type :=
| ValueError
| ZeroDivisionError
| OverflowError.

(** A Python expression that may raise: [inl e] is the exception [e]
    propagating, [inr v] the value. *)
Abbreviation py := (sum exn).

Definition returns {A : Type} (c : py A) : Prop := exists v, c = inr v.

Definition raises {A : Type} (c : py A) : Prop := exists e, c = inl e.

(** ** [fractions.Fraction] *)

Module Fraction.

Record t : Type := mk { numerator : Z; denominator : Z }.

(** [Fraction(n)] for an [int]. *)
Definition of_int (n : Z) : t := mk n 1.

(** [Fraction(n, d)]: lowest terms, positive denominator. *)
Definition make (n d : Z) : py t :=
  if d =? 0 then raise ZeroDivisionError
  else
    let g := Z.gcd n d in
    let g := if d <? 0 then - g else g in
    ret (mk (n / g) (d / g)).

(** [abs(a - x) <= abs(b - x)] on fractions with positive
    denominators, by cross multiplication. *)
Definition closer_or_equal (a b x : t) : bool :=
  Z.abs (numerator a * denominator x - numerator x * denominator a)
    * denominator b
  <=? Z.abs (numerator b * denominator x - numerator x * denominator b)
    * denominator a.

(** The [while True] loop of [limit_denominator].  The state is
    [(p0, q0, p1, q1, n, d)]; the loop leaves through [break] with the
    four convergent components.  [d] strictly decreases, so
    [S (Z.to_nat d)] rounds are enough; [None] is the exhausted
    counter. *)
Fixpoint convergents (fuel : nat) (max_denominator p0 q0 p1 q1 n d : Z)
  : option (py (Z * Z * Z * Z)) :=
  match fuel with
  | O => None
  | S fuel' =>
      if d =? 0 then Some (raise ZeroDivisionError)
      else
        let a := n / d in
        let q2 := q0 + a * q1 in
        if max_denominator <? q2 then Some (ret (p0, q0, p1, q1))
        else convergents fuel' max_denominator p1 q1 (p0 + a * p1) q2
                         d (n - a * d)
  end.

(** [self.limit_denominator(max_denominator)].  The branch of the
    exhausted counter is dead: see [convergents_fuel]. *)
Definition limit_denominator (self : t) (max_denominator : Z) : py t :=
  if max_denominator <? 1 then raise ValueError
  else if denominator self <=? max_denominator then ret self
  else
    match convergents (S (Z.to_nat (denominator self))) max_denominator
                      0 1 1 0 (numerator self) (denominator self) with
    | None => raise ZeroDivisionError
    | Some loop =>
        '(p0, q0, p1, q1) <- loop ;;
        if q1 =? 0 then raise ZeroDivisionError
        else
          let k := (max_denominator - q0) / q1 in
          bound1 <- make (p0 + k * p1) (q0 + k * q1) ;;
          bound2 <- make p1 q1 ;;
          if closer_or_equal bound2 bound1 self then ret bound2
          else ret bound1
    end.

End Fraction.

(** ** Built-in integer operations *)

(** Square-and-multiply on the binary digits of the exponent. *)
Fixpoint pow_pos (b : Z) (e : positive) (m : Z) : Z :=
  match e with
  | xH => b mod m
  | xO e' => let h := pow_pos b e' m in (h * h) mod m
  | xI e' => let h := pow_pos b e' m in ((h * h) mod m * b) mod m
  end.

(** [pow(b, e, m)].  For a negative exponent the base is replaced by
    its inverse modulo [m], and [ValueError] is raised when it has none
    (the notebook does not get there: its exponent is [r >> 1] with
    [r >= 1]). *)
Definition pow (b e m : Z) : py Z :=
  if m =? 0 then raise ValueError
  else
    match e with
    | Z0 => ret (1 mod m)
    | Zpos p => ret (pow_pos b p m)
    | Zneg p =>
        if Z.gcd b m =? 1 then ret (pow_pos (Z.invmod b m) p m)
        else raise ValueError
    end.

(** [math.gcd]. *)
Definition gcd (a b : Z) : Z := Z.gcd a b.

(** ** Python floats: IEEE 754 binary64

    A finite float is [mant * 2 ^ expo]; the sign is the sign of [mant]
    (the sign of a zero is not tracked: nothing below observes it).
    Every operation is the exact result rounded once to 53 significant
    bits, to nearest with ties to the even significand, with gradual
    underflow down to [2 ^ -1074]; a result of magnitude [2 ^ 1024] or
    more is an overflow. *)

Module Float.

Inductive t : Type :=
| Finite (mant expo : Z)
| Infinity (negative : bool)
| NaN.

Definition prec : Z := 53.
Definition emax : Z := 1024.
Definition emin : Z := -1074.

(** [z * 2 ^ e] for [e >= 0], and [z] for a negative [e]. *)
Definition shl (z e : Z) : Z := z * 2 ^ Z.max 0 e.

(** Nearest integer to [num / den], ties to even ([den > 0]). *)
Definition rne (num den : Z) : Z :=
  let q := num / den in
  match 2 * (num mod den) ?= den with
  | Lt => q
  | Gt => q + 1
  | Eq => if Z.even q then q else q + 1
  end.

(** [floor (log2 (num / den))] for [num > 0] and [den > 0]. *)
Definition ilog2 (num den : Z) : Z :=
  let d := Z.log2 num - Z.log2 den in
  if shl den d <=? shl num (- d) then d else d - 1.

(** The exponent of the unit in the last place of [num / den]. *)
Definition ulp_exponent (num den : Z) : Z :=
  Z.max (ilog2 num den - (prec - 1)) emin.

(** Rounding of a positive rational. *)
Definition round_pos (num den : Z) : t :=
  let e := ulp_exponent num den in
  let m := rne (shl num (- e)) (shl den e) in
  if 2 ^ emax <=? shl m e then Infinity false else Finite m e.

Definition opp (x : t) : t :=
  match x with
  | Finite m e => Finite (- m) e
  | Infinity s => Infinity (negb s)
  | NaN => NaN
  end.

(** Rounding of the rational [num / den], [den > 0]. *)
Definition round (num den : Z) : t :=
  match num with
  | Z0 => Finite 0 0
  | Zpos _ => round_pos num den
  | Zneg _ => opp (round_pos (- num) den)
  end.

(** Conversion of an [int] operand: [OverflowError] when the nearest
    float is out of range. *)
Definition of_int (n : Z) : py t :=
  match round n 1 with
  | Finite m e => ret (Finite m e)
  | _ => raise OverflowError
  end.

(** [int(x)]: truncation toward zero. *)
Definition to_int (x : t) : py Z :=
  match x with
  | Finite m e => ret (if 0 <=? e then m * 2 ^ e else Z.quot m (2 ^ (- e)))
  | Infinity _ => raise OverflowError
  | NaN => raise ValueError
  end.

Definition is_zero (x : t) : bool :=
  match x with Finite m _ => m =? 0 | _ => false end.

Definition is_negative (x : t) : bool :=
  match x with
  | Finite m _ => m <? 0
  | Infinity s => s
  | NaN => false
  end.

(** [x * y] on floats. *)
Definition mul (x y : t) : t :=
  match x, y with
  | Finite m1 e1, Finite m2 e2 =>
      round (shl (m1 * m2) (e1 + e2)) (shl 1 (- (e1 + e2)))
  | NaN, _ | _, NaN => NaN
  | _, _ =>
      if is_zero x || is_zero y then NaN
      else Infinity (xorb (is_negative x) (is_negative y))
  end.

(** [x / y] on floats. *)
Definition truediv (x y : t) : py t :=
  if is_zero y then raise ZeroDivisionError
  else
    match x, y with
    | Finite m1 e1, Finite m2 e2 =>
        ret (round (Z.sgn m2 * shl m1 (e1 - e2))
                   (shl (Z.abs m2) (e2 - e1)))
    | NaN, _ | _, NaN => ret NaN
    | Infinity _, Infinity _ => ret NaN
    | Infinity s, Finite m _ => ret (Infinity (xorb s (m <? 0)))
    | Finite _ _, Infinity _ => ret (Finite 0 0)
    end.

(** [a / b] on two [int]s: the exact quotient rounded once. *)
Definition int_truediv (a b : Z) : py t :=
  if b =? 0 then raise ZeroDivisionError
  else
    match round (Z.sgn b * a) (Z.abs b) with
    | Finite m e => ret (Finite m e)
    | _ => raise OverflowError
    end.

(** The literal [1.0]. *)
Definition one : t := Finite 1 0.

End Float.

(** ** The factoring cell *)

Module Shor.

(** What the cell prints. *)
Inductive output : Type :=
| ChoseNonRelativePrime (factor : Z)
| FactorsFound (f1 f2 toFactor : Z)
| Failed (f1 f2 : Z).

(** [random.random()]: the float [k * 2 ^ -53], [0 <= k < 2 ^ 53]. *)
Definition random (k : Z) : Float.t := Float.Finite k (- 53).

(** [base = int(random.random() * toFactor)]. *)
Definition sample_base (u : Float.t) (toFactor : Z) : py Z :=
  n <- Float.of_int toFactor ;;
  Float.to_int (Float.mul u n).

(** [r = Fraction(y).limit_denominator(toFactor - 1).denominator]. *)
Definition period_candidate (y toFactor : Z) : py Z :=
  f <- Fraction.limit_denominator (Fraction.of_int y) (toFactor - 1) ;;
  ret (Fraction.denominator f).

(** [if r % 2 != 0: r *= 2]. *)
Definition even_period (r : Z) : Z :=
  if negb (r mod 2 =? 0) then r * 2 else r.

(** [apowrhalf], [f1] and [f2]. *)
Definition candidate_pair (base r toFactor : Z) : py (Z * Z) :=
  apowrhalf <- pow base (Z.shiftr r 1) toFactor ;;
  ret (gcd (apowrhalf + 1) toFactor, gcd (apowrhalf - 1) toFactor).

(** [int(1.0 * toFactor / (f1 * f2))]. *)
Definition float_quotient (toFactor d : Z) : py Z :=
  n <- Float.of_int toFactor ;;
  let n := Float.mul Float.one n in
  d <- Float.of_int d ;;
  q <- Float.truediv n d ;;
  Float.to_int q.

(** [int(toFactor / (f1 * f2))]. *)
Definition int_quotient (toFactor d : Z) : py Z :=
  q <- Float.int_truediv toFactor d ;;
  Float.to_int q.

(** The first [if] after the gcds; [and] evaluates its third operand
    only when the first two hold. *)
Definition composite_correction (toFactor : Z) (f : Z * Z) : py (Z * Z) :=
  let '(f1, f2) := f in
  if negb (f1 * f2 =? toFactor) && (1 <? f1 * f2) then
    k <- float_quotient toFactor (f1 * f2) ;;
    if k * f1 * f2 =? toFactor then
      k' <- int_quotient toFactor (f1 * f2) ;;
      ret (f1 * f2, k')
    else ret (f1, f2)
  else ret (f1, f2).

(** The second [if]: success or failure report. *)
Definition verdict (toFactor : Z) (f : Z * Z) : output :=
  let '(f1, f2) := f in
  if (f1 * f2 =? toFactor) && (1 <? f1) && (1 <? f2)
  then FactorsFound f1 f2 toFactor
  else Failed f1 f2.

(** The pair after the correction pass. *)
Definition corrected_pair (toFactor base y : Z) : py (Z * Z) :=
  r <- period_candidate y toFactor ;;
  f <- candidate_pair base (even_period r) toFactor ;;
  composite_correction toFactor f.

(** Everything after the measurement. *)
Definition resolver (toFactor base y : Z) : py output :=
  f <- corrected_pair toFactor base y ;;
  ret (verdict toFactor f).

(** The co-primality gate and what follows it.  [measure] stands for
    the quantum subroutine (the simulator): given the base and the
    number to factor it yields the measured [y], or raises. *)
Definition factor_with (toFactor base : Z) (measure : Z -> Z -> py Z)
  : py output :=
  if negb (gcd base toFactor =? 1)
  then ret (ChoseNonRelativePrime (gcd base toFactor))
  else
    y <- measure base toFactor ;;
    resolver toFactor base y.

(** The whole cell, for the draw [u] of the random generator. *)
Definition cell (toFactor : Z) (u : Float.t) (measure : Z -> Z -> py Z)
  : py output :=
  base <- sample_base u toFactor ;;
  factor_with toFactor base measure.

End Shor.

(** ** The quantum subroutine of the factoring cell: its registers *)

Module Registers.

(** [range(n)]; empty for [n <= 0]. *)
Definition range (n : Z) : list Z := List.map Z.of_nat (seq 0 (Z.to_nat n)).

(** [qi = [i for i in range(qubitCount)]]. *)
Definition qi (qubitCount : Z) : list Z :=
  List.map (fun i => i) (range qubitCount).

(** [qo = [(i + qubitCount) for i in range(qubitCount)]]. *)
Definition qo (qubitCount : Z) : list Z :=
  List.map (fun i => i + qubitCount) (range qubitCount).

(** [[Pauli.PauliZ] * qubitCount], as the list of its entries. *)
Definition b {A : Type} (PauliZ : A) (qubitCount : Z) : list A :=
  repeat PauliZ (Z.to_nat qubitCount).

End Registers.

(** ** The QAOA notebook *)

Module Qaoa.

(** A networkx graph, as what [G.nodes()] and [G.edges()] yield. *)
Record graph : Type := mkGraph { nodes : list Z; edges : list (Z * Z) }.

(** [x >> i]: a negative shift count raises [ValueError]. *)
Definition rshift (x i : Z) : py Z :=
  if i <? 0 then raise ValueError else ret (Z.shiftr x i).

(** [(x >> i) & 1]. *)
Definition bit (x i : Z) : py Z :=
  s <- rshift x i ;;
  ret (Z.land s 1).

(** The [for i, j in G.edges()] loop of [maxcut_obj], from the running
    value [obj]. *)
Fixpoint maxcut_loop (x : Z) (es : list (Z * Z)) (obj : Z) : py Z :=
  match es with
  | [] => ret obj
  | (i, j) :: es' =>
      bi <- bit x i ;;
      bj <- bit x j ;;
      maxcut_loop x es' (if negb (bi =? bj) then obj - 1 else obj)
  end.

Definition maxcut_obj (x : Z) (G : graph) : py Z :=
  maxcut_loop x (edges G) 0.

(** The loop of [compute_expectation] over [counts.items()], from the
    running [avg] and [sum_count]. *)
Fixpoint expectation_loop (G : graph) (items : list (Z * Z))
    (avg sum_count : Z) : py (Z * Z) :=
  match items with
  | [] => ret (avg, sum_count)
  | (bitstring, count) :: items' =>
      obj <- maxcut_obj bitstring G ;;
      expectation_loop G items' (avg + obj * count) (sum_count + count)
  end.

(** [compute_expectation(counts, G)], for the items of [counts]. *)
Definition compute_expectation (counts : list (Z * Z)) (G : graph)
  : py Float.t :=
  '(avg, sum_count) <- expectation_loop G counts 0 0 ;;
  Float.int_truediv avg sum_count.

(** The Pauli bases passed to [qc.r]. *)
Inductive pauli : Type := PauliX | PauliZ.

(** A method call on the simulator [qc]. *)
Inductive call : Type :=
| h (q : Z)
| mcx (controls : list Z) (target : Z)
| r (basis : pauli) (angle : Float.t) (q : Z).

(** [2 * t] for a float [t]: the [int] is converted, then multiplied. *)
Definition twice (t : Float.t) : Float.t := Float.mul (Float.round 2 1) t.

(** The inner [for pair in list(G.edges())] loop of repetition [irep].
    [None] is the [IndexError] of [gamma[irep]]. *)
Fixpoint problem_unitary (es : list (Z * Z)) (gamma : list Float.t)
    (irep : nat) : option (list call) :=
  match es with
  | [] => Some []
  | edge :: es' =>
      match nth_error gamma irep with
      | Some g =>
          match problem_unitary es' gamma irep with
          | Some rest =>
              Some (mcx [fst edge] (snd edge)
                      :: r PauliZ (twice g) (snd edge)
                      :: mcx [fst edge] (snd edge) :: rest)
          | None => None
          end
      | None => None
      end
  end.

(** The inner [for i in range(0, nqubits)] loop of the mixer, over the
    qubits [qs].  [None] is the [IndexError] of [beta[irep]]. *)
Fixpoint mixer_unitary (qs : list Z) (beta : list Float.t) (irep : nat)
  : option (list call) :=
  match qs with
  | [] => Some []
  | i :: qs' =>
      match nth_error beta irep with
      | Some bt =>
          match mixer_unitary qs' beta irep with
          | Some rest => Some (r PauliX (twice bt) i :: rest)
          | None => None
          end
      | None => None
      end
  end.

(** The [for irep in range(0, p)] loop: the calls of the repetitions
    [irep, irep + 1, ...], [todo] of them. *)
Fixpoint repetitions (G : graph) (nqubits : Z) (beta gamma : list Float.t)
    (irep todo : nat) : option (list call) :=
  match todo with
  | O => Some []
  | S todo' =>
      match problem_unitary (edges G) gamma irep,
            mixer_unitary (Registers.range nqubits) beta irep with
      | Some pu, Some mu =>
          match repetitions G nqubits beta gamma (S irep) todo' with
          | Some rest => Some (pu ++ mu ++ rest)
          | None => None
          end
      | _, _ => None
      end
  end.

(** The calls that [run_qaoa_circ] makes on [qc] before measuring;
    [None] is an [IndexError]. *)
Definition qaoa_circuit (G : graph) (theta : list Float.t)
  : option (list call) :=
  let nqubits := Z.of_nat (length (nodes G)) in
  let p := (length theta / 2)%nat in
  let beta := firstn p theta in
  let gamma := skipn p theta in
  match repetitions G nqubits beta gamma 0 p with
  | Some reps => Some (List.map h (Registers.range nqubits) ++ reps)
  | None => None
  end.

(** One more occurrence of the key [k] in a [Counter]. *)
Fixpoint increment (k : Z) (c : list (Z * Z)) : list (Z * Z) :=
  match c with
  | [] => [(k, 1)]
  | (k', v) :: c' =>
      if k' =? k then (k', v + 1) :: c' else (k', v) :: increment k c'
  end.

(** [Counter(outcomes).items()], keys in the order of first
    occurrence. *)
Definition Counter (outcomes : list Z) : list (Z * Z) :=
  fold_left (fun c k => increment k c) outcomes [].

(** [run_qaoa_circ(G, theta, shots)].  [measure_shots] stands for the
    simulator: given the calls made on it, the qubits to measure and the
    number of shots, it yields the list of measured integers. *)
Definition run_qaoa_circ (G : graph) (theta : list Float.t) (shots : Z)
    (measure_shots : list call -> list Z -> Z -> list Z)
  : option (list (Z * Z)) :=
  match qaoa_circuit G theta with
  | Some calls =>
      let nqubits := Z.of_nat (length (nodes G)) in
      Some (Counter (measure_shots calls (Registers.range nqubits) shots))
  | None => None
  end.

(** [execute_circ(theta)] of [get_expectation(G, p, shots)]. *)
Definition execute_circ (G : graph) (shots : Z)
    (measure_shots : list call -> list Z -> Z -> list Z)
    (theta : list Float.t) : option (py Float.t) :=
  match run_qaoa_circ G theta shots measure_shots with
  | Some counts => Some (compute_expectation counts G)
  | None => None
  end.

End Qaoa.

(** ** The error-mitigation notebook *)

Module Mitiq.

(** A [counts] dictionary of a job result, as its items: bitstring and
    count. *)
Definition counts_dict : Type := list (String.string * Z).

(** [counts[key]] when [key in counts]. *)
Fixpoint lookup (key : String.string) (counts : counts_dict) : option Z :=
  match counts with
  | [] => None
  | (k, v) :: counts' =>
      if String.eqb k key then Some v else lookup key counts'
  end.

(** [key = max(counts)]: the greatest key, [ValueError] on an empty
    dictionary. *)
Definition max_key (counts : counts_dict) : py String.string :=
  match counts with
  | [] => raise ValueError
  | (k, _) :: counts' =>
      ret (fold_left
             (fun best kv =>
                if String.ltb best (fst kv) then fst kv else best)
             counts' k)
  end.

(** [(counts[key] if key in counts else 0) / shots]. *)
Definition expectation_value (counts : counts_dict) (key : String.string)
    (shots : Z) : py Float.t :=
  let hits := match lookup key counts with Some v => v | None => 0 end in
  Float.int_truediv hits shots.

(** The cell of the ideal run: [key = max(counts)], then the value. *)
Definition ideal_value (counts : counts_dict) (shots : Z) : py Float.t :=
  key <- max_key counts ;;
  expectation_value counts key shots.

End Mitiq.

(** ** Vocabulary of the statements *)

(** [2 ^ E <= num / den < 2 ^ (E + 1)], without division. *)
Definition bracket (num den E : Z) : Prop :=
  Float.shl den E <= Float.shl num (- E) < 2 * Float.shl den E.

(** [x] is the finite float whose value is [n / d]. *)
Definition has_value (x : Float.t) (n d : Z) : Prop :=
  exists m e,
    x = Float.Finite m e /\ Float.shl m e * d = n * Float.shl 1 (- e).

(** [g] is a factor of [n] other than [1] and [n]. *)
Definition nontrivial_factor (g n : Z) : Prop := (g | n) /\ 1 < g < n.

(** The pair is a factorization of [n] into two factors above [1]. *)
Definition nontrivial_factorization (n f1 f2 : Z) : Prop :=
  f1 * f2 = n /\ 1 < f1 /\ 1 < f2.

(** The width of the phase register, the exact [ceil (log2 toFactor)].
    The cell computes it as [math.ceil(math.log2(toFactor))] for the
    simulator only; nothing after the measurement reads it, and the
    statements below use it only to bound the measured [y]. *)
Definition qubitCount (toFactor : Z) : Z := Z.log2_up toFactor.

(** The same float in the Standard Library's specification of IEEE 754
    arithmetic, at the binary64 format. *)
Definition to_spec (x : Float.t) : spec_float :=
  match x with
  | Float.Finite m e => binary_normalize 53 1024 m e false
  | Float.Infinity s => S754_infinity s
  | Float.NaN => S754_nan
  end.

(** The three float operations of the cell on integer operands, computed
    by the Standard Library's specification. *)
Definition spec_of_int (n : Z) : spec_float :=
  binary_normalize 53 1024 n 0 false.

Definition spec_truediv (a b : Z) : spec_float :=
  SFdiv 53 1024 (spec_of_int a) (spec_of_int b).

Definition spec_random_times (k n : Z) : spec_float :=
  SFmul 53 1024 (binary_normalize 53 1024 k (- 53) false) (spec_of_int n).

(** Following the specification, not the code: [p / q] is a best
    rational approximation of [x_num / x_den] among the fractions with
    a denominator in [[1, bound]]; distances are compared by cross
    multiplication. *)
Definition best_approximation (x_num x_den bound p q : Z) : Prop :=
  1 <= q <= bound
  /\ forall p' q' : Z,
      1 <= q' <= bound ->
      Z.abs (x_num * q - p * x_den) * q'
      <= Z.abs (x_num * q' - p' * x_den) * q.

(** Following the specification, not the code: the period candidate
    read off the phase [y / 2 ^ n], by the same library routine. *)
Definition phase_period (y n toFactor : Z) : py Z :=
  x <- Fraction.make y (2 ^ n) ;;
  f <- Fraction.limit_denominator x (toFactor - 1) ;;
  ret (Fraction.denominator f).

(** Line 687 can draw [base] for [toFactor]: some value of
    [random.random()] gives it. *)
Definition drawn (toFactor base : Z) : Prop :=
  exists k, 0 <= k < 2 ^ 53
            /\ Shor.sample_base (Shor.random k) toFactor = inr base.

(** [x] is a finite float whose value lies in [[lo, hi]]. *)
Definition float_between (x : Float.t) (lo hi : Z) : Prop :=
  exists m e,
    x = Float.Finite m e
    /\ lo * Float.shl 1 (- e) <= Float.shl m e <= hi * Float.shl 1 (- e).

(** The edge [(i, j)] is cut by the partition [x]: bits [i] and [j] of
    [x] differ. *)
Definition cut (x : Z) (ij : Z * Z) : bool :=
  xorb (Z.testbit x (fst ij)) (Z.testbit x (snd ij)).

(** Every call acts on qubits among [0 .. nqubits - 1]. *)
Definition call_in_range (nqubits : Z) (c : Qaoa.call) : Prop :=
  match c with
  | Qaoa.h q => 0 <= q < nqubits
  | Qaoa.mcx controls target =>
      Forall (fun q => 0 <= q < nqubits) controls /\ 0 <= target < nqubits
  | Qaoa.r _ _ q => 0 <= q < nqubits
  end.

(** The graph of the QAOA notebook: the ring on four nodes, with its
    edges in the order [G.edges()] lists them. *)
Definition ring4 : Qaoa.graph :=
  Qaoa.mkGraph [0; 1; 2; 3] [(0, 1); (0, 3); (1, 2); (2, 3)].

(** Minus the number of edges cut by the partition [x]. *)
Definition objective (G : Qaoa.graph) (x : Z) : Z :=
  - Z.of_nat (length (filter (cut x) (Qaoa.edges G))).

Definition Zsum (l : list Z) : Z := fold_right Z.add 0 l.

(** The sum of objective times count, and the sum of the counts, over
    the items of a counts dictionary. *)
Definition weighted (G : Qaoa.graph) (items : list (Z * Z)) : Z :=
  Zsum (List.map (fun kv => objective G (fst kv) * snd kv) items).

Definition total (items : list (Z * Z)) : Z := Zsum (List.map snd items).

(** No edge has a negative node label (a negative shift count raises
    [ValueError]). *)
Definition valid_edges (G : Qaoa.graph) : Prop :=
  Forall (fun ij => 0 <= fst ij /\ 0 <= snd ij) (Qaoa.edges G).

(** Every edge joins nodes labelled below the number of nodes. *)
Definition edges_in_range (G : Qaoa.graph) : Prop :=
  Forall
    (fun ij => 0 <= fst ij < Z.of_nat (length (Qaoa.nodes G))
               /\ 0 <= snd ij < Z.of_nat (length (Qaoa.nodes G)))
    (Qaoa.edges G).

(** Two keys of a counts dictionary over two qubits. *)
Module Keys.
Import String.
Local Open Scope string_scope.
Definition all_zero : string := "00".
Definition all_one : string := "11".
End Keys.

(** * Properties *)

(** ** The error monad *)

Lemma bind_inr {A B : Type} (v : A) (k : A -> py B) :
  bind (inr v : py A) k = k v.
Proof. reflexivity. Qed.

Lemma bind_inl {A B : Type} (e : exn) (k : A -> py B) :
  bind (inl e : py A) k = inl e.
Proof. reflexivity. Qed.

Lemma bind_returns {A B : Type} (c : py A) (k : A -> py B) (w : B) :
  bind c k = inr w -> exists v, c = inr v /\ k v = inr w.
Proof.
  destruct c as [e | v]; intros H.
  - discriminate H.
  - exists v. split; [reflexivity | exact H].
Qed.

(** ** Modular exponentiation *)

Lemma pow_pos_spec (b m : Z) (e : positive) :
  pow_pos b e m = (b ^ Zpos e) mod m.
Proof.
  induction e as [e IH | e IH |]; cbn [pow_pos].
  - rewrite IH, Pos2Z.inj_xI.
    replace (2 * Z.pos e + 1) with (Z.pos e + Z.pos e + 1) by lia.
    rewrite !Z.pow_add_r, Z.pow_1_r by lia.
    rewrite <- Zmult_mod, Zmult_mod_idemp_l. reflexivity.
  - rewrite IH, Pos2Z.inj_xO.
    replace (2 * Z.pos e) with (Z.pos e + Z.pos e) by lia.
    rewrite Z.pow_add_r by lia.
    rewrite <- Zmult_mod. reflexivity.
  - rewrite Z.pow_1_r. reflexivity.
Qed.

Lemma pow_spec (b e m : Z) :
  m <> 0 -> 0 <= e -> pow b e m = inr ((b ^ e) mod m).
Proof.
  intros Hm He. unfold pow.
  destruct (Z.eqb_spec m 0) as [E | _]; [contradiction |].
  destruct e as [| p | p].
  - reflexivity.
  - rewrite pow_pos_spec. reflexivity.
  - lia.
Qed.

(** ** Agreement with the Standard Library's binary64

    The rounding above and the Standard Library's [binary_normalize],
    [SFdiv] and [SFmul] give the same floats on the operands met in the
    statements below and on operands that exercise ties, inexact
    conversions, the subnormal range and the overflow threshold. *)

Example of_int_agrees :
  List.map (fun n => to_spec (Float.round n 1))
    [15; 2 ^ 53 + 1; 2 ^ 53 + 3; 3 * 2 ^ 600 + 12345;
     2 ^ 1024 - 2 ^ 970 - 1; 2 ^ 1024 - 2 ^ 970; - (2 ^ 60 + 77)]
  = List.map spec_of_int
    [15; 2 ^ 53 + 1; 2 ^ 53 + 3; 3 * 2 ^ 600 + 12345;
     2 ^ 1024 - 2 ^ 970 - 1; 2 ^ 1024 - 2 ^ 970; - (2 ^ 60 + 77)].
Proof. vm_compute. reflexivity. Qed.

Example truediv_agrees :
  List.map
    (fun ab =>
       match Float.truediv (Float.round (fst ab) 1)
                           (Float.round (snd ab) 1) with
       | inr q => Some (to_spec q)
       | inl _ => None
       end)
    [(15, 3); (2 ^ 53 + 1, 3); (1, 3); (16373, 7); (3 ^ 600, 7 ^ 123);
     (5, 3 ^ 640); (1, 2 ^ 1023 + 5); (2 ^ 80 + 1, 2 ^ 70 + 3)]
  = List.map (fun ab => Some (spec_truediv (fst ab) (snd ab)))
    [(15, 3); (2 ^ 53 + 1, 3); (1, 3); (16373, 7); (3 ^ 600, 7 ^ 123);
     (5, 3 ^ 640); (1, 2 ^ 1023 + 5); (2 ^ 80 + 1, 2 ^ 70 + 3)].
Proof. vm_compute. reflexivity. Qed.

Example mul_agrees :
  List.map
    (fun kn =>
       to_spec (Float.mul (Shor.random (fst kn)) (Float.round (snd kn) 1)))
    [(0, 15); (2 ^ 53 - 1, 15); (2 ^ 53 - 1, 2 ^ 53 + 3);
     (12345678901, 3 ^ 200); (1, 2)]
  = List.map (fun kn => spec_random_times (fst kn) (snd kn))
    [(0, 15); (2 ^ 53 - 1, 15); (2 ^ 53 - 1, 2 ^ 53 + 3);
     (12345678901, 3 ^ 200); (1, 2)].
Proof. vm_compute. reflexivity. Qed.

(** ** Rounding to nearest *)

Lemma pow2_pos (e : Z) : 0 < 2 ^ Z.max 0 e.
Proof. apply Z.pow_pos_nonneg; lia. Qed.

Lemma shl_up (z e : Z) : 0 <= e -> Float.shl z e = z * 2 ^ e.
Proof. intros H. unfold Float.shl. rewrite Z.max_r by lia. reflexivity. Qed.

Lemma shl_down (z e : Z) : e <= 0 -> Float.shl z e = z.
Proof.
  intros H. unfold Float.shl. rewrite Z.max_l by lia.
  rewrite Z.pow_0_r. lia.
Qed.

Lemma shl_pos (z e : Z) : 0 < z -> 0 < Float.shl z e.
Proof. intros H. unfold Float.shl. pose proof (pow2_pos e). nia. Qed.

(** [rne] is within one half of the exact quotient and never below its
    floor. *)
Lemma rne_bounds (a b : Z) :
  0 < b ->
  a / b <= Float.rne a b <= a / b + 1
  /\ 2 * a - b <= 2 * b * Float.rne a b <= 2 * a + b.
Proof.
  intros Hb. unfold Float.rne.
  pose proof (Z.div_mod a b ltac:(lia)) as Hdm.
  pose proof (Z.mod_pos_bound a b Hb) as Hr.
  destruct (Z.compare_spec (2 * (a mod b)) b) as [E | L | G].
  - destruct (Z.even (a / b)); nia.
  - nia.
  - nia.
Qed.

Lemma rne_exact (a b : Z) : 0 < b -> Float.rne (a * b) b = a.
Proof.
  intros Hb. unfold Float.rne.
  rewrite Z.mod_mul, Z.div_mul by lia.
  destruct (2 * 0 ?= b) eqn:C; [| reflexivity |].
  - apply Z.compare_eq_iff in C. lia.
  - apply Z.compare_gt_iff in C. lia.
Qed.

Lemma div_ratio (a b a' b' : Z) :
  0 < b -> 0 < b' -> a * b' = a' * b -> a / b = a' / b'.
Proof.
  intros Hb Hb' E.
  pose proof (Z.div_mod a b ltac:(lia)) as Hdm.
  pose proof (Z.mod_pos_bound a b Hb) as Hr.
  assert (Hm : (a' - b' * (a / b)) * b = (a mod b) * b').
  { rewrite Z.mul_sub_distr_r, <- E.
    rewrite Hdm at 1. ring. }
  apply Z.div_unique with (r := a' - b' * (a / b)); [| lia].
  left. split.
  - apply Z.mul_le_mono_pos_r with (p := b); [lia |]. rewrite Hm. nia.
  - apply Z.mul_lt_mono_pos_r with (p := b); [lia |]. rewrite Hm. nia.
Qed.

(** [rne] depends on the quotient only. *)
Lemma rne_ratio (a b a' b' : Z) :
  0 < b -> 0 < b' -> a * b' = a' * b -> Float.rne a b = Float.rne a' b'.
Proof.
  intros Hb Hb' E. unfold Float.rne.
  rewrite <- (div_ratio a b a' b' Hb Hb' E).
  pose proof (Z.div_mod a b ltac:(lia)) as Hdm.
  pose proof (Z.div_mod a' b' ltac:(lia)) as Hdm'.
  rewrite <- (div_ratio a b a' b' Hb Hb' E) in Hdm'.
  assert (Hm : (a mod b) * b' = (a' mod b') * b) by nia.
  destruct (Z.compare_spec (2 * (a mod b)) b) as [C | C | C];
    destruct (Z.compare_spec (2 * (a' mod b')) b') as [C' | C' | C'];
    try reflexivity; exfalso; nia.
Qed.

(** ** The binary exponent of a positive rational *)

Lemma log2_bounds (n : Z) : 0 < n -> 2 ^ Z.log2 n <= n < 2 * 2 ^ Z.log2 n.
Proof.
  intros H. pose proof (Z.log2_spec n H) as [L U].
  rewrite Z.pow_succ_r in U by apply Z.log2_nonneg. lia.
Qed.

Lemma ilog2_bracket (num den : Z) :
  0 < num -> 0 < den -> bracket num den (Float.ilog2 num den).
Proof.
  intros Hn Hd. unfold bracket, Float.ilog2.
  pose proof (log2_bounds num Hn) as Bn.
  pose proof (log2_bounds den Hd) as Bd.
  pose proof (Z.log2_nonneg num) as Ln.
  pose proof (Z.log2_nonneg den) as Ld.
  set (a := Z.log2 num) in *. set (b := Z.log2 den) in *.
  assert (Pa : 0 < 2 ^ a) by (apply Z.pow_pos_nonneg; lia).
  assert (Pb : 0 < 2 ^ b) by (apply Z.pow_pos_nonneg; lia).
  destruct (Z.leb_spec (Float.shl den (a - b)) (Float.shl num (- (a - b))))
    as [T | T].
  - destruct (Z.le_gt_cases 0 (a - b)) as [S | S].
    + rewrite shl_up in * by lia. rewrite shl_down in * by lia.
      assert (E : 2 ^ a = 2 ^ b * 2 ^ (a - b))
        by (rewrite <- Z.pow_add_r by lia; f_equal; lia).
      assert (0 < 2 ^ (a - b)) by (apply Z.pow_pos_nonneg; lia).
      nia.
    + rewrite (shl_down den) in * by lia. rewrite (shl_up num) in * by lia.
      assert (E : 2 ^ b = 2 ^ a * 2 ^ (- (a - b)))
        by (rewrite <- Z.pow_add_r by lia; f_equal; lia).
      assert (0 < 2 ^ (- (a - b))) by (apply Z.pow_pos_nonneg; lia).
      nia.
  - destruct (Z.le_gt_cases 1 (a - b)) as [S | S].
    + rewrite (shl_up den (a - b)) in T by lia.
      rewrite (shl_down num (- (a - b))) in T by lia.
      rewrite (shl_up den (a - b - 1)) by lia.
      rewrite (shl_down num (- (a - b - 1))) by lia.
      assert (E : 2 ^ a = 2 * 2 ^ b * 2 ^ (a - b - 1)).
      { rewrite <- (Z.pow_1_r 2) at 2.
        rewrite <- !Z.pow_add_r by lia. f_equal. lia. }
      assert (E' : 2 ^ (a - b) = 2 * 2 ^ (a - b - 1)).
      { rewrite <- (Z.pow_1_r 2) at 2.
        rewrite <- !Z.pow_add_r by lia. f_equal. lia. }
      assert (0 < 2 ^ (a - b - 1)) by (apply Z.pow_pos_nonneg; lia).
      nia.
    + rewrite (shl_down den (a - b)) in T by lia.
      rewrite (shl_up num (- (a - b))) in T by lia.
      rewrite (shl_down den (a - b - 1)) by lia.
      rewrite (shl_up num (- (a - b - 1))) by lia.
      assert (E : 2 * 2 ^ b = 2 ^ a * 2 ^ (- (a - b - 1))).
      { rewrite <- (Z.pow_1_r 2) at 1.
        rewrite <- !Z.pow_add_r by lia. f_equal. lia. }
      assert (E' : 2 ^ (- (a - b - 1)) = 2 * 2 ^ (- (a - b))).
      { rewrite <- (Z.pow_1_r 2) at 2.
        rewrite <- !Z.pow_add_r by lia. f_equal. lia. }
      assert (0 < 2 ^ (- (a - b))) by (apply Z.pow_pos_nonneg; lia).
      nia.
Qed.

(** Powers of two with exponents split into their positive and negative
    parts. *)
Lemma pow2_split_lt (E E' : Z) :
  E < E' ->
  2 * (2 ^ Z.max 0 E * 2 ^ Z.max 0 (- E'))
  <= 2 ^ Z.max 0 E' * 2 ^ Z.max 0 (- E).
Proof.
  intros H.
  rewrite <- (Z.pow_1_r 2) at 1.
  rewrite <- !Z.pow_add_r by lia.
  apply Z.pow_le_mono_r; lia.
Qed.

Lemma bracket_unique (num den E E' : Z) :
  0 < num -> 0 < den ->
  bracket num den E -> bracket num den E' -> E = E'.
Proof.
  intros Hn Hd [L U] [L' U']. unfold Float.shl in *.
  pose proof (pow2_pos E) as P1. pose proof (pow2_pos (- E)) as Q1.
  pose proof (pow2_pos E') as P2. pose proof (pow2_pos (- E')) as Q2.
  destruct (Z.lt_trichotomy E E') as [C | [C | C]]; [| exact C |]; exfalso.
  - pose proof (pow2_split_lt E E' C) as S.
    set (p := 2 ^ Z.max 0 E) in *. set (q := 2 ^ Z.max 0 (- E)) in *.
    set (p' := 2 ^ Z.max 0 E') in *. set (q' := 2 ^ Z.max 0 (- E')) in *.
    assert (den * p' * q <= num * q' * q) by nia.
    assert (num * q * q' < 2 * den * p * q') by nia.
    nia.
  - pose proof (pow2_split_lt E' E C) as S.
    set (p := 2 ^ Z.max 0 E) in *. set (q := 2 ^ Z.max 0 (- E)) in *.
    set (p' := 2 ^ Z.max 0 E') in *. set (q' := 2 ^ Z.max 0 (- E')) in *.
    assert (den * p * q' <= num * q * q') by nia.
    assert (num * q' * q < 2 * den * p' * q) by nia.
    nia.
Qed.

Lemma bracket_ratio (num den num' den' E : Z) :
  0 < den -> 0 < den' -> num * den' = num' * den ->
  bracket num den E -> bracket num' den' E.
Proof.
  intros Hd Hd' R [L U]. unfold bracket, Float.shl in *.
  pose proof (pow2_pos E) as P1. pose proof (pow2_pos (- E)) as Q1.
  set (p := 2 ^ Z.max 0 E) in *. set (q := 2 ^ Z.max 0 (- E)) in *.
  split.
  - apply Z.mul_le_mono_pos_r with (p := den); [lia |].
    replace (num' * q * den) with (num * den' * q) by (rewrite R; ring).
    nia.
  - apply Z.mul_lt_mono_pos_r with (p := den); [lia |].
    replace (num' * q * den) with (num * den' * q) by (rewrite R; ring).
    nia.
Qed.

Lemma ilog2_ratio (num den num' den' : Z) :
  0 < num -> 0 < den -> 0 < num' -> 0 < den' ->
  num * den' = num' * den ->
  Float.ilog2 num den = Float.ilog2 num' den'.
Proof.
  intros Hn Hd Hn' Hd' R.
  apply (bracket_unique num' den'); try assumption.
  - apply (bracket_ratio num den); try assumption.
    apply ilog2_bracket; assumption.
  - apply ilog2_bracket; assumption.
Qed.

(** ** Rounding of a positive rational *)

(** The rounded float depends on the quotient only. *)
Lemma round_pos_ratio (num den num' den' : Z) :
  0 < num -> 0 < den -> 0 < num' -> 0 < den' ->
  num * den' = num' * den ->
  Float.round_pos num den = Float.round_pos num' den'.
Proof.
  intros Hn Hd Hn' Hd' R. unfold Float.round_pos, Float.ulp_exponent.
  rewrite (ilog2_ratio num den num' den') by assumption.
  set (e := Z.max _ Float.emin).
  replace (Float.rne (Float.shl num (- e)) (Float.shl den e))
    with (Float.rne (Float.shl num' (- e)) (Float.shl den' e));
    [reflexivity |].
  apply rne_ratio; try (apply shl_pos; assumption).
  unfold Float.shl.
  transitivity (num' * den * (2 ^ Z.max 0 (- e) * 2 ^ Z.max 0 e)); [ring |].
  rewrite <- R. ring.
Qed.

(** Below [2 ^ 53] and in the normal range the unit in the last place
    is at most one: the significand is the rounding of [num * 2 ^ s / den]
    for the shift [s >= 0] that brings the quotient into
    [[2 ^ 52, 2 ^ 53)]. *)
Lemma round_pos_small (num den : Z) :
  0 < num -> 0 < den ->
  num < 2 ^ 53 * den -> den < 2 ^ 1022 * num ->
  exists s,
    0 <= s <= 1074
    /\ 2 ^ 52 * den <= num * 2 ^ s < 2 ^ 53 * den
    /\ Float.round_pos num den
       = Float.Finite (Float.rne (num * 2 ^ s) den) (- s).
Proof.
  intros Hn Hd Hu Hl.
  pose proof (ilog2_bracket num den Hn Hd) as [L U].
  unfold Float.round_pos, Float.ulp_exponent, Float.prec, Float.emin,
    Float.emax.
  set (E := Float.ilog2 num den) in *.
  assert (HE : E <= 52).
  { destruct (Z.le_gt_cases E 52) as [C | C]; [exact C | exfalso].
    rewrite shl_up in L by lia. rewrite shl_down in L by lia.
    assert (2 ^ 53 <= 2 ^ E) by (apply Z.pow_le_mono_r; lia).
    nia. }
  assert (HE' : - 1022 <= E).
  { destruct (Z.le_gt_cases (- 1022) E) as [C | C]; [exact C | exfalso].
    rewrite (shl_up num) in U by lia. rewrite (shl_down den) in U by lia.
    assert (2 ^ 1023 <= 2 ^ (- E)) by (apply Z.pow_le_mono_r; lia).
    assert (2 ^ 1023 = 2 * 2 ^ 1022) by reflexivity.
    nia. }
  exists (52 - E).
  assert (Ps : 0 < 2 ^ (52 - E)) by (apply Z.pow_pos_nonneg; lia).
  assert (N : 2 ^ 52 * den <= num * 2 ^ (52 - E) < 2 ^ 53 * den).
  { assert (H53 : 2 ^ 53 = 2 * 2 ^ 52) by reflexivity.
    rewrite H53.
    destruct (Z.le_gt_cases 0 E) as [C | C].
    - rewrite (shl_up den) in L, U by lia.
      rewrite (shl_down num) in L, U by lia.
      assert (X : 2 ^ 52 = 2 ^ E * 2 ^ (52 - E))
        by (rewrite <- Z.pow_add_r by lia; f_equal; lia).
      rewrite X.
      set (a := 2 ^ E) in *. set (b := 2 ^ (52 - E)) in *.
      assert (den * a * b <= num * b)
        by (apply Z.mul_le_mono_nonneg_r; lia).
      assert (num * b < 2 * (den * a) * b)
        by (apply Z.mul_lt_mono_pos_r; lia).
      lia.
    - rewrite (shl_up num) in L, U by lia.
      rewrite (shl_down den) in L, U by lia.
      assert (X : 2 ^ (52 - E) = 2 ^ 52 * 2 ^ (- E))
        by (rewrite <- Z.pow_add_r by lia; f_equal; lia).
      rewrite X.
      set (a := 2 ^ (- E)) in *. set (c := 2 ^ 52) in *.
      assert (0 < c) by (subst c; reflexivity).
      assert (den * c <= num * a * c)
        by (apply Z.mul_le_mono_nonneg_r; lia).
      assert (num * a * c < 2 * den * c)
        by (apply Z.mul_lt_mono_pos_r; lia).
      lia. }
  split; [lia |]. split; [exact N |].
  replace (Z.max (E - (53 - 1)) (- 1074)) with (- (52 - E)) by lia.
  rewrite Z.opp_involutive.
  rewrite (shl_up num) by lia. rewrite (shl_down den) by lia.
  set (m := Float.rne _ _).
  rewrite (shl_down m) by lia.
  pose proof (rne_bounds (num * 2 ^ (52 - E)) den Hd) as [[_ B] _].
  fold m in B.
  assert (num * 2 ^ (52 - E) / den < 2 ^ 53)
    by (apply Z.div_lt_upper_bound; lia).
  assert (2 ^ 53 < 2 ^ 1024) by (apply Z.pow_lt_mono_r; lia).
  destruct (Z.leb_spec (2 ^ 1024) m) as [C | C]; [lia | reflexivity].
Qed.

Lemma to_int_shift (m s : Z) :
  0 <= m -> 0 <= s -> Float.to_int (Float.Finite m (- s)) = inr (m / 2 ^ s).
Proof.
  intros Hm Hs. unfold Float.to_int. rewrite Z.opp_involutive.
  destruct (Z.leb_spec 0 (- s)) as [C | C].
  - replace s with 0 by lia. cbn [Z.opp Z.pow].
    rewrite Z.mul_1_r, Z.div_1_r. reflexivity.
  - rewrite Z.quot_div_nonneg; [reflexivity | lia |].
    apply Z.pow_pos_nonneg; lia.
Qed.

(** Rounding a quotient of an integer below [2 ^ 53] never reaches the
    next integer: truncating the rounded value gives the floor. *)
Lemma floor_of_rounded (num den s : Z) :
  0 < num < 2 ^ 53 -> 0 < den -> 0 <= s ->
  2 ^ 52 * den <= num * 2 ^ s ->
  Float.rne (num * 2 ^ s) den / 2 ^ s = num / den.
Proof.
  intros Hn Hd Hs N.
  assert (P : 0 < 2 ^ s) by (apply Z.pow_pos_nonneg; lia).
  pose proof (rne_bounds (num * 2 ^ s) den Hd) as [[F _] [_ B]].
  set (p := 2 ^ s) in *. set (m := Float.rne (num * p) den) in *.
  pose proof (Z.div_mod num den ltac:(lia)) as Hdm.
  pose proof (Z.mod_pos_bound num den Hd) as Hr.
  set (k := num / den) in *. set (r := num mod den) in *.
  assert (H53 : 2 ^ 53 = 2 * 2 ^ 52) by reflexivity.
  assert (D : den < 2 * p) by nia.
  assert (Lo : k * p <= m).
  { apply Z.le_trans with (2 := F). apply Z.div_le_lower_bound; nia. }
  assert (Hi : m < (k + 1) * p).
  { apply Z.mul_lt_mono_pos_l with (p := 2 * den); [lia |].
    apply Z.le_lt_trans with (1 := B). nia. }
  symmetry. apply Z.div_unique with (r := m - p * k); lia.
Qed.

Lemma to_int_round_pos (num den : Z) :
  0 < num < 2 ^ 53 -> 0 < den < 2 ^ 1022 ->
  exists m e,
    Float.round_pos num den = Float.Finite m e
    /\ Float.to_int (Float.Finite m e) = inr (num / den).
Proof.
  intros Hn Hd.
  destruct (round_pos_small num den) as (s & Hs & N & R); try lia.
  exists (Float.rne (num * 2 ^ s) den), (- s). split; [exact R |].
  pose proof (rne_bounds (num * 2 ^ s) den ltac:(lia)) as [[F _] _].
  assert (0 <= num * 2 ^ s / den).
  { apply Z.div_pos; [| lia].
    assert (0 < 2 ^ s) by (apply Z.pow_pos_nonneg; lia). nia. }
  rewrite to_int_shift by lia.
  rewrite floor_of_rounded by lia. reflexivity.
Qed.

(** From [2 ^ 52] on the unit in the last place is at least one: the
    significand is the rounding of [num / (den * 2 ^ e)] for the shift
    [e >= 0] that brings the quotient into [[2 ^ 52, 2 ^ 53)], and the
    result overflows when it reaches [2 ^ 1024]. *)
Lemma round_pos_high (num den : Z) :
  0 < num -> 0 < den -> 2 ^ 52 * den <= num ->
  exists e,
    0 <= e
    /\ 2 ^ 52 * (den * 2 ^ e) <= num < 2 ^ 53 * (den * 2 ^ e)
    /\ Float.round_pos num den
       = if 2 ^ 1024 <=? Float.rne num (den * 2 ^ e) * 2 ^ e
         then Float.Infinity false
         else Float.Finite (Float.rne num (den * 2 ^ e)) e.
Proof.
  intros Hn Hd Hl.
  pose proof (ilog2_bracket num den Hn Hd) as [L U].
  unfold Float.round_pos, Float.ulp_exponent, Float.prec, Float.emin,
    Float.emax.
  set (E := Float.ilog2 num den) in *.
  assert (P52 : 2 <= 2 ^ 52) by (vm_compute; discriminate).
  assert (HE : 52 <= E).
  { destruct (Z.le_gt_cases 52 E) as [C | C]; [exact C | exfalso].
    destruct (Z.le_gt_cases 0 E) as [S | S].
    - rewrite (shl_up den) in U by lia. rewrite (shl_down num) in U by lia.
      assert (2 ^ E <= 2 ^ 51) by (apply Z.pow_le_mono_r; lia).
      assert (2 ^ 52 = 2 * 2 ^ 51) by reflexivity.
      nia.
    - rewrite (shl_down den) in U by lia. rewrite (shl_up num) in U by lia.
      assert (0 < 2 ^ (- E)) by (apply Z.pow_pos_nonneg; lia).
      nia. }
  rewrite (shl_up den) in L, U by lia. rewrite (shl_down num) in L, U by lia.
  exists (E - 52).
  replace (Z.max (E - (53 - 1)) (- 1074)) with (E - 52) by lia.
  rewrite (shl_down num) by lia. rewrite (shl_up den) by lia.
  rewrite shl_up by lia.
  assert (X : 2 ^ E = 2 ^ 52 * 2 ^ (E - 52))
    by (rewrite <- Z.pow_add_r by lia; f_equal; lia).
  assert (H53 : 2 ^ 53 = 2 * 2 ^ 52) by reflexivity.
  split; [lia |]. split; [| reflexivity].
  rewrite X in L, U. rewrite H53. nia.
Qed.

Lemma to_int_up (m e : Z) :
  0 <= e -> Float.to_int (Float.Finite m e) = inr (m * 2 ^ e).
Proof.
  intros H. unfold Float.to_int.
  destruct (Z.leb_spec 0 e) as [_ | C]; [reflexivity | lia].
Qed.

(** ** Values of floats *)

Lemma round_of_pos (num den : Z) :
  0 < num -> Float.round num den = Float.round_pos num den.
Proof. intros H. destruct num; [lia | reflexivity | lia]. Qed.

Lemma has_value_mant (m e n d : Z) :
  Float.shl m e * d = n * Float.shl 1 (- e) -> 0 < n -> 0 < d -> 0 < m.
Proof.
  unfold Float.shl. intros H Hn Hd.
  pose proof (pow2_pos e). pose proof (pow2_pos (- e)). nia.
Qed.

Lemma pow2_add_split (a b : Z) :
  2 ^ Z.max 0 (- a) * 2 ^ Z.max 0 (- b) * 2 ^ Z.max 0 (a + b)
  = 2 ^ Z.max 0 (- (a + b)) * 2 ^ Z.max 0 a * 2 ^ Z.max 0 b.
Proof. rewrite <- !Z.pow_add_r by lia. f_equal. lia. Qed.

Lemma pow2_sub_split (a b : Z) :
  2 ^ Z.max 0 (- a) * 2 ^ Z.max 0 (a - b) * 2 ^ Z.max 0 b
  = 2 ^ Z.max 0 (- b) * 2 ^ Z.max 0 (b - a) * 2 ^ Z.max 0 a.
Proof. rewrite <- !Z.pow_add_r by lia. f_equal. lia. Qed.

(** A product of two positive floats is the rounded exact product. *)
Lemma mul_value (x y : Float.t) (n1 d1 n2 d2 : Z) :
  has_value x n1 d1 -> has_value y n2 d2 ->
  0 < n1 -> 0 < d1 -> 0 < n2 -> 0 < d2 ->
  Float.mul x y = Float.round_pos (n1 * n2) (d1 * d2).
Proof.
  intros (m1 & e1 & -> & V1) (m2 & e2 & -> & V2) Hn1 Hd1 Hn2 Hd2.
  pose proof (has_value_mant _ _ _ _ V1 Hn1 Hd1) as Hm1.
  pose proof (has_value_mant _ _ _ _ V2 Hn2 Hd2) as Hm2.
  cbn [Float.mul].
  rewrite round_of_pos by (apply shl_pos; nia).
  apply round_pos_ratio; try (apply shl_pos; nia); try nia.
  pose proof (pow2_add_split e1 e2) as S.
  unfold Float.shl in *.
  pose proof (pow2_pos e1) as P1. pose proof (pow2_pos e2) as P2.
  set (p1 := 2 ^ Z.max 0 e1) in *. set (q1 := 2 ^ Z.max 0 (- e1)) in *.
  set (p2 := 2 ^ Z.max 0 e2) in *. set (q2 := 2 ^ Z.max 0 (- e2)) in *.
  set (p := 2 ^ Z.max 0 (e1 + e2)) in *.
  set (q := 2 ^ Z.max 0 (- (e1 + e2))) in *.
  apply Z.mul_reg_r with (p := p1 * p2); [nia |].
  transitivity ((m1 * p1 * d1) * (m2 * p2 * d2) * p); [ring |].
  rewrite V1, V2.
  transitivity (n1 * n2 * (q1 * q2 * p)); [ring |].
  rewrite S. ring.
Qed.

(** A quotient of two positive floats is the rounded exact quotient. *)
Lemma truediv_value (x y : Float.t) (n1 d1 n2 d2 : Z) :
  has_value x n1 d1 -> has_value y n2 d2 ->
  0 < n1 -> 0 < d1 -> 0 < n2 -> 0 < d2 ->
  Float.truediv x y = inr (Float.round_pos (n1 * d2) (d1 * n2)).
Proof.
  intros (m1 & e1 & -> & V1) (m2 & e2 & -> & V2) Hn1 Hd1 Hn2 Hd2.
  pose proof (has_value_mant _ _ _ _ V1 Hn1 Hd1) as Hm1.
  pose proof (has_value_mant _ _ _ _ V2 Hn2 Hd2) as Hm2.
  unfold Float.truediv. cbn [Float.is_zero].
  destruct (Z.eqb_spec m2 0) as [C | _]; [lia |].
  rewrite Z.sgn_pos, Z.abs_eq, Z.mul_1_l by lia.
  rewrite round_of_pos by (apply shl_pos; lia).
  apply (f_equal (@inr exn Float.t)).
  apply round_pos_ratio; try (apply shl_pos; lia); try nia.
  pose proof (pow2_sub_split e1 e2) as S.
  unfold Float.shl in *.
  pose proof (pow2_pos e1) as P1. pose proof (pow2_pos e2) as P2.
  set (p1 := 2 ^ Z.max 0 e1) in *. set (q1 := 2 ^ Z.max 0 (- e1)) in *.
  set (p2 := 2 ^ Z.max 0 e2) in *. set (q2 := 2 ^ Z.max 0 (- e2)) in *.
  set (u := 2 ^ Z.max 0 (e1 - e2)) in *.
  set (v := 2 ^ Z.max 0 (e2 - e1)) in *.
  apply Z.mul_reg_r with (p := p1 * p2); [nia |].
  transitivity ((m1 * p1 * d1) * n2 * (u * p2)); [ring |].
  rewrite V1.
  transitivity (n1 * n2 * (q1 * u * p2)); [ring |].
  rewrite S.
  transitivity (n1 * (n2 * (1 * q2)) * (v * p1)); [ring |].
  rewrite <- V2. ring.
Qed.

(** An integer below [2 ^ 53] converts exactly. *)
Lemma of_int_small (n : Z) :
  0 < n < 2 ^ 53 ->
  exists x, Float.of_int n = inr x /\ has_value x n 1
            /\ Float.round_pos n 1 = x.
Proof.
  intros Hn. unfold Float.of_int. rewrite round_of_pos by lia.
  destruct (round_pos_small n 1) as (s & Hs & N & R); try lia.
  rewrite <- (Z.mul_1_r (n * 2 ^ s)) in R. rewrite rne_exact in R by lia.
  rewrite R.
  eexists. split; [reflexivity |]. split; [| reflexivity].
  exists (n * 2 ^ s), (- s). split; [reflexivity |].
  rewrite shl_down by lia. rewrite Z.opp_involutive, shl_up by lia. ring.
Qed.

(** A larger integer converts to an integer-valued float that is still
    at least [2 ^ 53]. *)
Lemma of_int_big (n : Z) :
  2 ^ 53 <= n < 2 ^ 1022 ->
  exists x v, Float.of_int n = inr x /\ has_value x v 1
              /\ 2 ^ 53 <= v <= 2 * n.
Proof.
  intros Hn.
  assert (Hpos : 0 < n).
  { assert (0 < 2 ^ 53) by reflexivity. lia. }
  unfold Float.of_int. rewrite round_of_pos by lia.
  pose proof (ilog2_bracket n 1 Hpos ltac:(lia)) as [L U].
  unfold Float.round_pos, Float.ulp_exponent, Float.prec, Float.emin,
    Float.emax.
  set (E := Float.ilog2 n 1) in *.
  assert (HE : 53 <= E).
  { destruct (Z.le_gt_cases 53 E) as [C | C]; [exact C | exfalso].
    destruct (Z.le_gt_cases 0 E) as [S | S].
    - rewrite (shl_up 1) in U by lia. rewrite (shl_down n) in U by lia.
      assert (2 ^ E <= 2 ^ 52) by (apply Z.pow_le_mono_r; lia).
      assert (2 ^ 53 = 2 * 2 ^ 52) by reflexivity.
      lia.
    - rewrite (shl_down 1) in U by lia. rewrite (shl_up n) in U by lia.
      assert (0 < 2 ^ (- E)) by (apply Z.pow_pos_nonneg; lia).
      nia. }
  assert (HE' : E <= 1021).
  { destruct (Z.le_gt_cases E 1021) as [C | C]; [exact C | exfalso].
    rewrite (shl_up 1) in L by lia. rewrite (shl_down n) in L by lia.
    assert (2 ^ 1022 <= 2 ^ E) by (apply Z.pow_le_mono_r; lia).
    lia. }
  rewrite (shl_up 1) in L, U by lia. rewrite (shl_down n) in L, U by lia.
  replace (Z.max (E - (53 - 1)) (- 1074)) with (E - 52) by lia.
  rewrite (shl_down n) by lia. rewrite (shl_up 1) by lia.
  assert (X : 2 ^ E = 2 ^ 52 * 2 ^ (E - 52))
    by (rewrite <- Z.pow_add_r by lia; f_equal; lia).
  assert (P : 2 <= 2 ^ (E - 52)).
  { change 2 with (2 ^ 1) at 1. apply Z.pow_le_mono_r; lia. }
  rewrite Z.mul_1_l in *.
  set (p := 2 ^ (E - 52)) in *.
  pose proof (rne_bounds n p ltac:(lia)) as [[F _] [_ B]].
  set (m := Float.rne n p) in *.
  assert (H52 : 2 ^ 52 <= m).
  { apply Z.le_trans with (2 := F). apply Z.div_le_lower_bound; lia. }
  assert (H53 : 2 ^ 53 = 2 * 2 ^ 52) by reflexivity.
  assert (V : 2 ^ 53 <= m * p <= 2 * n) by nia.
  assert (T : 2 * 2 ^ 1022 < 2 ^ 1024) by reflexivity.
  rewrite shl_up by lia. fold p.
  destruct (Z.leb_spec (2 ^ 1024) (m * p)) as [C | C]; [lia |].
  exists (Float.Finite m (E - 52)), (m * p).
  split; [reflexivity |]. split; [| exact V].
  exists m, (E - 52). split; [reflexivity |].
  rewrite shl_up by lia. rewrite shl_down by lia. fold p. ring.
Qed.

(** A quotient at least one half below an even integer rounds up to
    it. *)
Lemma rne_ge_even (a b M : Z) :
  0 < b -> Z.even M = true -> (2 * M - 1) * b <= 2 * a ->
  M <= Float.rne a b.
Proof.
  intros Hb HM H. unfold Float.rne.
  pose proof (Z.div_mod a b ltac:(lia)) as Hdm.
  pose proof (Z.mod_pos_bound a b Hb) as Hr.
  set (q := a / b) in *. set (r := a mod b) in *.
  destruct (Z.le_gt_cases M q) as [C | C].
  - destruct (2 * r ?= b); [destruct (Z.even q) | |]; lia.
  - assert (Q : q = M - 1) by nia. 
    destruct (Z.compare_spec (2 * r) b) as [T | T | T].
    + replace (Z.even q) with false; [lia |].
      subst q. rewrite Q. rewrite Z.even_sub, HM. reflexivity.
    + exfalso. nia.
    + lia.
Qed.

(** The largest integers that convert: everything below
    [2 ^ 1024 - 2 ^ 970]. *)
Lemma of_int_returns_iff (n : Z) :
  0 < n -> (returns (Float.of_int n) <-> n < 2 ^ 1024 - 2 ^ 970).
Proof.
  intros Hn.
  assert (T : 2 ^ 53 < 2 ^ 1024 - 2 ^ 970) by reflexivity.
  destruct (Z.lt_ge_cases n (2 ^ 53)) as [S | B].
  - destruct (of_int_small n ltac:(lia)) as (x & Hx & _).
    split; [lia | intros _; exists x; exact Hx].
  - unfold Float.of_int. rewrite round_of_pos by lia.
    assert (P52 : 0 < 2 ^ 52) by reflexivity.
    assert (H53 : 2 ^ 53 = 2 * 2 ^ 52) by reflexivity.
    destruct (round_pos_high n 1) as (e & He & Norm & R); try lia.
    rewrite R. rewrite !Z.mul_1_l in *.
    assert (Pe : 0 < 2 ^ e) by (apply Z.pow_pos_nonneg; lia).
    pose proof (rne_bounds n (2 ^ e) Pe) as [[F1 F2] [_ Bd]].
    pose proof (rne_ge_even n (2 ^ e) (2 ^ 53) Pe eq_refl) as Up.
    set (m := Float.rne n (2 ^ e)) in *. clearbody m.
    assert (Hm : 2 ^ 52 <= m <= 2 ^ 53).
    { split.
      - apply Z.le_trans with (2 := F1). apply Z.div_le_lower_bound; lia.
      - assert (n / 2 ^ e < 2 ^ 53) by (apply Z.div_lt_upper_bound; lia).
        lia. }
    assert (X : 2 ^ 1024 = 2 ^ 53 * 2 ^ 971) by reflexivity.
    assert (Y : 2 ^ 970 * 2 = 2 ^ 971) by reflexivity.
    destruct (Z.lt_trichotomy e 971) as [C | [C | C]].
    + (* e < 971: finite, and n is small *)
      assert (2 * 2 ^ e <= 2 ^ 971).
      { rewrite <- (Z.pow_succ_r 2 e) by lia.
        apply Z.pow_le_mono_r; lia. }
      destruct (Z.leb_spec (2 ^ 1024) (m * 2 ^ e)) as [O | _]; [nia |].
      split; [intros _; nia | intros _; eexists; reflexivity].
    + subst e.
      destruct (Z.leb_spec (2 ^ 1024) (m * 2 ^ 971)) as [O | Fi].
      * split; [intros [v Hv]; discriminate Hv | intros Hlt; exfalso].
        nia.
      * split; [intros _ | intros _; eexists; reflexivity].
        destruct (Z.lt_ge_cases n (2 ^ 1024 - 2 ^ 970)) as [Hlt | Hge];
          [exact Hlt | exfalso].
        assert (2 ^ 53 <= m) by (apply Up; nia).
        nia.
    + assert (2 * 2 ^ 971 <= 2 ^ e).
      { rewrite <- (Z.pow_succ_r 2 971) by lia.
        apply Z.pow_le_mono_r; lia. }
      destruct (Z.leb_spec (2 ^ 1024) (m * 2 ^ e)) as [O | Fi].
      * split; [intros [v Hv]; discriminate Hv | intros Hlt; exfalso].
        nia.
      * exfalso. nia.
Qed.

(** ** The two float quotients of the correction pass *)

Lemma has_value_one : has_value Float.one 1 1.
Proof. exists 1, 0. split; reflexivity. Qed.

(** A number to factor below [2 ^ 53] converts to a float exactly, and
    so does every quotient met by the correction pass. *)
Section Below_2_53.

Variable toFactor : Z.
Hypothesis toFactor_small : 0 < toFactor < 2 ^ 53.

(** [int(1.0 * toFactor / d)] is the floor quotient. *)
Lemma float_quotient_exact (d : Z) :
  0 < d < 2 ^ 1021 ->
  Shor.float_quotient toFactor d = inr (toFactor / d).
Proof.
  intros Hd. pose proof toFactor_small as Hn.
  unfold Shor.float_quotient.
  destruct (of_int_small toFactor Hn) as (x & Hx & Vx & Rx).
  rewrite Hx, bind_inr.
  rewrite (mul_value _ _ 1 1 toFactor 1 has_value_one Vx) by lia.
  rewrite !Z.mul_1_l, Rx.
  destruct (Z.lt_ge_cases d (2 ^ 53)) as [C | C].
  - destruct (of_int_small d ltac:(lia)) as (y & Hy & Vy & _).
    rewrite Hy, bind_inr.
    rewrite (truediv_value _ _ toFactor 1 d 1 Vx Vy) by lia.
    rewrite bind_inr, Z.mul_1_l, Z.mul_1_r.
    destruct (to_int_round_pos toFactor d) as (m & e & R & T).
    + lia.
    + assert (2 ^ 1021 < 2 ^ 1022) by reflexivity. lia.
    + rewrite R. exact T.
  - assert (B : 2 * 2 ^ 1021 = 2 ^ 1022) by reflexivity.
    destruct (of_int_big d ltac:(lia)) as (y & v & Hy & Vy & Hv).
    rewrite Hy, bind_inr.
    assert (P : 0 < 2 ^ 53) by reflexivity.
    rewrite (truediv_value _ _ toFactor 1 v 1 Vx Vy) by lia.
    rewrite bind_inr, Z.mul_1_l, Z.mul_1_r.
    destruct (to_int_round_pos toFactor v) as (m & e & R & T); try lia.
    rewrite R, T. rewrite !Z.div_small by lia. reflexivity.
Qed.

(** [int(toFactor / d)] is the floor quotient. *)
Lemma int_quotient_exact (d : Z) :
  0 < d < 2 ^ 1022 ->
  Shor.int_quotient toFactor d = inr (toFactor / d).
Proof.
  intros Hd. pose proof toFactor_small as Hn.
  unfold Shor.int_quotient, Float.int_truediv.
  destruct (Z.eqb_spec d 0) as [C | _]; [lia |].
  rewrite Z.sgn_pos, Z.abs_eq, Z.mul_1_l by lia.
  rewrite round_of_pos by lia.
  destruct (to_int_round_pos toFactor d Hn Hd) as (m & e & R & T).
  rewrite R. exact T.
Qed.

(** What the correction pass computes when the float quotients are
    exact. *)
Lemma composite_correction_exact (f1 f2 : Z) :
  f1 * f2 < 2 ^ 1021 ->
  Shor.composite_correction toFactor (f1, f2)
  = inr (if negb (f1 * f2 =? toFactor) && (1 <? f1 * f2)
            && (toFactor mod (f1 * f2) =? 0)
         then (f1 * f2, toFactor / (f1 * f2))
         else (f1, f2)).
Proof.
  intros Hp. pose proof toFactor_small as Hn.
  unfold Shor.composite_correction.
  destruct (negb (f1 * f2 =? toFactor)); [| reflexivity].
  destruct (Z.ltb_spec 1 (f1 * f2)) as [C | C]; [| reflexivity].
  cbn [andb].
  rewrite float_quotient_exact, bind_inr by lia.
  assert (B : 2 ^ 1021 < 2 ^ 1022) by reflexivity.
  pose proof (Z.div_mod toFactor (f1 * f2) ltac:(lia)) as Hdm.
  replace (toFactor / (f1 * f2) * f1 * f2)
    with (f1 * f2 * (toFactor / (f1 * f2))) by ring.
  destruct (Z.eqb_spec (toFactor mod (f1 * f2)) 0) as [E | E].
  - rewrite E, Z.add_0_r in Hdm. rewrite <- Hdm, Z.eqb_refl.
    rewrite int_quotient_exact by lia. reflexivity.
  - destruct (Z.eqb_spec (f1 * f2 * (toFactor / (f1 * f2))) toFactor)
      as [E' | _]; [lia | reflexivity].
Qed.

(** The correction pass replaces the pair exactly when the product
    differs from [toFactor], exceeds [1] and divides [toFactor]. *)
Lemma composite_correction_below_2_53 (f1 f2 : Z) :
  f1 * f2 < 2 ^ 1021 ->
  (f1 * f2 <> toFactor /\ 1 < f1 * f2 /\ (f1 * f2 | toFactor) ->
   Shor.composite_correction toFactor (f1, f2)
   = inr (f1 * f2, toFactor / (f1 * f2)))
  /\ (~ (f1 * f2 <> toFactor /\ 1 < f1 * f2 /\ (f1 * f2 | toFactor)) ->
      Shor.composite_correction toFactor (f1, f2) = inr (f1, f2)).
Proof.
  intros Hp. pose proof toFactor_small as Hn.
  rewrite composite_correction_exact by assumption.
  destruct (Z.eqb_spec (f1 * f2) toFactor) as [E | E];
    destruct (Z.ltb_spec 1 (f1 * f2)) as [L | L];
    destruct (Z.eqb_spec (toFactor mod (f1 * f2)) 0) as [M | M];
    cbn [negb andb]; split; intros H;
    try reflexivity; try (exfalso; lia).
  - exfalso. apply H. split; [exact E |]. split; [exact L |].
    apply Z.mod_divide; [lia | exact M].
  - exfalso. destruct H as (_ & _ & D). apply M.
    apply Z.mod_divide; [lia | exact D].
Qed.

End Below_2_53.

(** ** Sampling of the base *)

Lemma has_value_random (k : Z) : has_value (Shor.random k) k (2 ^ 53).
Proof.
  exists k, (- 53). split; [reflexivity |].
  rewrite shl_down by lia. rewrite shl_up by lia.
  change (- (- 53)) with 53. ring.
Qed.

(** For a number to factor below [2 ^ 53] the sampled base is in
    [[0, toFactor - 1]]. *)
Lemma sample_base_range (toFactor k : Z) :
  0 < toFactor < 2 ^ 53 -> 0 <= k < 2 ^ 53 ->
  exists base,
    Shor.sample_base (Shor.random k) toFactor = inr base
    /\ 0 <= base <= toFactor - 1.
Proof.
  intros Hn Hk. unfold Shor.sample_base.
  destruct (of_int_small toFactor Hn) as (x & Hx & Vx & Rx).
  rewrite Hx, bind_inr.
  destruct (Z.eq_dec k 0) as [-> | K].
  - destruct Vx as (m & e & -> & _). exists 0. split; [| lia].
    unfold Shor.random. cbn [Float.mul]. rewrite Z.mul_0_l.
    unfold Float.shl at 1. rewrite Z.mul_0_l. reflexivity.
  - assert (P53 : 0 < 2 ^ 53) by reflexivity.
    rewrite (mul_value _ _ k (2 ^ 53) toFactor 1 (has_value_random k) Vx)
      by lia.
    rewrite Z.mul_1_r.
    assert (P1022 : 2 ^ 53 < 2 ^ 1022) by reflexivity.
    destruct (round_pos_small (k * toFactor) (2 ^ 53))
      as (s & Hs & N & R); try nia.
    rewrite R.
    pose proof (rne_bounds (k * toFactor * 2 ^ s) (2 ^ 53) P53)
      as [[F _] [_ B]].
    set (m := Float.rne _ _) in *.
    assert (Ps : 0 < 2 ^ s) by (apply Z.pow_pos_nonneg; lia).
    assert (H53 : 2 ^ 53 = 2 * 2 ^ 52) by reflexivity.
    set (D := 2 ^ 53) in *. set (c := 2 ^ 52) in *. set (p := 2 ^ s) in *.
    assert (Hm : 0 <= m).
    { apply Z.le_trans with (2 := F). apply Z.div_pos; nia. }
    assert (Hc : c < toFactor * p).
    { apply Z.mul_lt_mono_pos_r with (p := D); [lia |].
      apply Z.le_lt_trans with (m := k * toFactor * p); [lia |]. nia. }
    assert (Hlt : m < p * toFactor).
    { apply Z.mul_lt_mono_pos_l with (p := 2 * D); [lia |].
      apply Z.le_lt_trans with (1 := B). nia. }
    rewrite to_int_shift by lia. fold p.
    exists (m / p). split; [reflexivity |].
    split.
    + apply Z.div_pos; lia.
    + enough (m / p < toFactor) by lia.
      apply Z.div_lt_upper_bound; lia.
Qed.

(** The rounded product of a draw below one and the float of [N] stays
    below [N]. *)
Lemma sampling_core (m P N k m' P' c : Z) :
  0 < c -> 0 < P -> 0 < P' ->
  (P' = P \/ 2 * P' <= P \/ 2 * P <= P') ->
  c <= m <= 2 * c ->
  c * P <= N ->
  2 * (m * P) <= 2 * N + P ->
  1 <= k <= 2 * c - 1 ->
  c * (2 * c * P') <= k * (m * P) < 2 * c * (2 * c * P') ->
  2 * (2 * c * P') * m' <= 2 * (k * (m * P)) + 2 * c * P' ->
  m' * P' < N /\ m' * P' <= m * P.
Proof.
  intros Hc HP HP' Cases Hm HN Hup Hk Norm Rne.
  assert (HmP : 0 < m * P) by (apply Z.mul_pos_pos; lia).
  assert (Hkm : k * (m * P) <= (2 * c - 1) * (m * P))
    by (apply Z.mul_le_mono_nonneg_r; lia).
  destruct Cases as [-> | [Small | Big]].
  - (* same binade *)
    assert (Hmc : c < m).
    { destruct (Z.eq_dec m c) as [-> | ]; [exfalso | lia]. nia. }
    assert (Hm' : m' < m).
    { apply Z.mul_lt_mono_pos_l with (p := 2 * (2 * c) * P); [nia |].
      nia. }
    split; nia.
  - (* a lower binade *)
    assert (Hm' : m' <= 2 * c).
    { assert (2 * (2 * c * P') * m' < 2 * (2 * c * P') * (2 * c + 1)).
      { apply Z.le_lt_trans with (1 := Rne). nia. } nia. }
    assert (W : m' * P' <= c * P) by nia.
    split; [| nia].
    destruct (Z.eq_dec N (c * P)) as [EN | NN]; [| lia].
    destruct (Z.eq_dec (m' * P') (c * P)) as [EW | NW]; [exfalso | lia].
    assert (m = c) by nia. subst m.
    assert (2 * P' = P) by nia. subst P.
    assert (m' = 2 * c) by nia. subst m'.
    nia.
  - exfalso. nia.
Qed.

Lemma sample_base_range_big (toFactor k : Z) :
  2 ^ 53 <= toFactor -> 0 <= k < 2 ^ 53 ->
  returns (Float.of_int toFactor) ->
  exists base,
    Shor.sample_base (Shor.random k) toFactor = inr base
    /\ 0 <= base <= toFactor - 1.
Proof.
  intros HN Hk [x Hx].
  assert (P53 : 0 < 2 ^ 53) by reflexivity.
  assert (H53 : 2 ^ 53 = 2 * 2 ^ 52) by reflexivity.
  assert (P52 : 0 < 2 ^ 52) by reflexivity.
  unfold Shor.sample_base. rewrite Hx, bind_inr.
  unfold Float.of_int in Hx. rewrite round_of_pos in Hx by lia.
  destruct (round_pos_high toFactor 1) as (e & He & Norm & R); try lia.
  rewrite R in Hx. rewrite !Z.mul_1_l in *.
  set (m := Float.rne toFactor (2 ^ e)) in *.
  destruct (Z.leb_spec (2 ^ 1024) (m * 2 ^ e)) as [C | Fin];
    [discriminate Hx |].
  inversion Hx; subst x; clear Hx.
  assert (Pe : 0 < 2 ^ e) by (apply Z.pow_pos_nonneg; lia).
  pose proof (rne_bounds toFactor (2 ^ e) Pe) as [[F1 F2] [_ B]].
  fold m in F1, F2, B. clearbody m.
  assert (Hm : 2 ^ 52 <= m <= 2 ^ 53).
  { split.
    - apply Z.le_trans with (2 := F1). apply Z.div_le_lower_bound; lia.
    - assert (toFactor / 2 ^ e < 2 ^ 53)
        by (apply Z.div_lt_upper_bound; lia).
      lia. }
  assert (He1 : 1 <= e).
  { destruct (Z.eq_dec e 0) as [-> | ]; [| lia].
    rewrite Z.pow_0_r in Norm. lia. }
  assert (V : has_value (Float.Finite m e) (m * 2 ^ e) 1).
  { exists m, e. split; [reflexivity |].
    rewrite shl_up by lia. rewrite shl_down by lia. ring. }
  destruct (Z.eq_dec k 0) as [-> | K].
  - exists 0. split; [| lia].
    unfold Shor.random. cbn [Float.mul]. rewrite Z.mul_0_l.
    unfold Float.shl at 1. rewrite Z.mul_0_l. reflexivity.
  - assert (HmP : 0 < m * 2 ^ e) by nia.
    rewrite (mul_value _ _ k (2 ^ 53) (m * 2 ^ e) 1
               (has_value_random k) V) by lia.
    rewrite Z.mul_1_r.
    assert (HX : 0 < k * (m * 2 ^ e)) by nia.
    destruct (Z.lt_ge_cases (k * (m * 2 ^ e)) (2 ^ 52 * 2 ^ 53))
      as [Low | High].
    + (* the product is below 2 ^ 52 *)
      assert (P1022 : 2 ^ 53 < 2 ^ 1022) by reflexivity.
      destruct (round_pos_small (k * (m * 2 ^ e)) (2 ^ 53))
        as (s & Hs & N' & R'); try lia.
      rewrite R'.
      pose proof (rne_bounds (k * (m * 2 ^ e) * 2 ^ s) (2 ^ 53) P53)
        as [[G1 G2] _].
      set (m' := Float.rne (k * (m * 2 ^ e) * 2 ^ s) (2 ^ 53)) in *.
      clearbody m'.
      assert (Ps : 0 < 2 ^ s) by (apply Z.pow_pos_nonneg; lia).
      assert (Hs1 : 2 <= 2 ^ s).
      { destruct (Z.eq_dec s 0) as [-> | ].
        - rewrite Z.pow_0_r in N'. lia.
        - change 2 with (2 ^ 1) at 1. apply Z.pow_le_mono_r; lia. }
      assert (Hm' : 0 <= m' <= 2 ^ 53).
      { split.
        - apply Z.le_trans with (2 := G1). apply Z.div_pos; nia.
        - assert (k * (m * 2 ^ e) * 2 ^ s / 2 ^ 53 < 2 ^ 53)
            by (apply Z.div_lt_upper_bound; lia).
          lia. }
      rewrite to_int_shift by lia.
      exists (m' / 2 ^ s). split; [reflexivity |]. split.
      * apply Z.div_pos; lia.
      * enough (m' / 2 ^ s < toFactor) by lia.
        apply Z.div_lt_upper_bound; nia.
    + (* the product is at least 2 ^ 52 *)
      destruct (round_pos_high (k * (m * 2 ^ e)) (2 ^ 53))
        as (e' & He' & N' & R'); try lia.
      rewrite R'.
      assert (Pe' : 0 < 2 ^ e') by (apply Z.pow_pos_nonneg; lia).
      pose proof (rne_bounds (k * (m * 2 ^ e)) (2 ^ 53 * 2 ^ e')
                    ltac:(nia)) as [[G1 _] [_ G2]].
      set (m' := Float.rne (k * (m * 2 ^ e)) (2 ^ 53 * 2 ^ e')) in *.
      clearbody m'.
      assert (Hm' : 0 <= m').
      { apply Z.le_trans with (2 := G1). apply Z.div_pos; nia. }
      assert (Cases : 2 ^ e' = 2 ^ e \/ 2 * 2 ^ e' <= 2 ^ e
                      \/ 2 * 2 ^ e <= 2 ^ e').
      { destruct (Z.lt_trichotomy e' e) as [C | [C | C]].
        - right. left. rewrite <- (Z.pow_succ_r 2 e') by lia.
          apply Z.pow_le_mono_r; lia.
        - left. subst e'. reflexivity.
        - right. right. rewrite <- (Z.pow_succ_r 2 e) by lia.
          apply Z.pow_le_mono_r; lia. }
      rewrite H53 in *.
      destruct (sampling_core m (2 ^ e) toFactor k m' (2 ^ e') (2 ^ 52))
        as [W1 W2]; try lia.
      destruct (Z.leb_spec (2 ^ 1024) (m' * 2 ^ e')) as [C | _]; [lia |].
      rewrite to_int_up by lia.
      exists (m' * 2 ^ e'). split; [reflexivity |]. nia.
Qed.

(** For every number to factor that converts to a float the sampled
    base is in [[0, toFactor - 1]]. *)
Lemma sample_base_range_general (toFactor k : Z) :
  0 < toFactor < 2 ^ 1024 - 2 ^ 970 -> 0 <= k < 2 ^ 53 ->
  exists base,
    Shor.sample_base (Shor.random k) toFactor = inr base
    /\ 0 <= base <= toFactor - 1.
Proof.
  intros HN Hk.
  destruct (Z.lt_ge_cases toFactor (2 ^ 53)) as [S | B].
  - apply sample_base_range; [lia | exact Hk].
  - apply sample_base_range_big; [exact B | exact Hk |].
    apply of_int_returns_iff; lia.
Qed.

(** From [2 ^ 1024 - 2 ^ 970] on the sampling step raises. *)
Lemma sample_base_overflow (toFactor : Z) (u : Float.t) :
  2 ^ 1024 - 2 ^ 970 <= toFactor ->
  Shor.sample_base u toFactor = inl OverflowError.
Proof.
  intros H.
  assert (P : 0 < 2 ^ 1024 - 2 ^ 970) by reflexivity.
  unfold Shor.sample_base.
  destruct (Float.of_int toFactor) as [err | x] eqn:E.
  - unfold Float.of_int in E.
    destruct (Float.round toFactor 1); inversion E; reflexivity.
  - exfalso.
    assert (R : returns (Float.of_int toFactor)) by (exists x; exact E).
    apply of_int_returns_iff in R; lia.
Qed.

(** ** The continued-fraction loop *)

Example limit_denominator_values :
  Fraction.limit_denominator (Fraction.mk 314159 100000) 10
  = inr (Fraction.mk 22 7)
  /\ Fraction.limit_denominator (Fraction.mk 314159 100000) 100
     = inr (Fraction.mk 311 99)
  /\ Fraction.limit_denominator (Fraction.mk 5 32) 14
     = inr (Fraction.mk 2 13)
  /\ Fraction.limit_denominator (Fraction.mk 1 4) 14
     = inr (Fraction.mk 1 4)
  /\ Fraction.limit_denominator (Fraction.of_int 4) 0 = inl ValueError.
Proof. repeat split. Qed.

(** The loop counter of [convergents] is never exhausted. *)
Lemma convergents_fuel (fuel : nat) :
  forall max_denominator p0 q0 p1 q1 n d : Z,
    0 <= d -> (Z.to_nat d < fuel)%nat ->
    Fraction.convergents fuel max_denominator p0 q0 p1 q1 n d <> None.
Proof.
  induction fuel as [| fuel IH]; intros mx p0 q0 p1 q1 n d Hd Hf.
  - lia.
  - cbn [Fraction.convergents].
    destruct (Z.eqb_spec d 0) as [E | E]; [discriminate |].
    destruct (mx <? q0 + n / d * q1); [discriminate |].
    pose proof (Z.div_mod n d E) as Hdm.
    pose proof (Z.mod_pos_bound n d ltac:(lia)) as Hr.
    apply IH; lia.
Qed.

(** ** The resolver, step by step *)

(** The continued-fraction step sees the integer [y]: the candidate is
    the denominator [1], whatever was measured. *)
Lemma period_candidate_one (y toFactor : Z) :
  2 <= toFactor -> Shor.period_candidate y toFactor = inr 1.
Proof.
  intros H. unfold Shor.period_candidate, Fraction.limit_denominator.
  cbn [Fraction.of_int Fraction.denominator].
  destruct (Z.ltb_spec (toFactor - 1) 1) as [C | _]; [lia |].
  destruct (Z.leb_spec 1 (toFactor - 1)) as [_ | C]; [| lia].
  reflexivity.
Qed.

Lemma even_period_spec (r : Z) :
  Shor.even_period r = if Z.even r then r else 2 * r.
Proof.
  unfold Shor.even_period. rewrite Zmod_even.
  destruct (Z.even r); cbn [Z.eqb negb]; lia.
Qed.

Lemma even_period_even (r : Z) : Z.even (Shor.even_period r) = true.
Proof.
  rewrite even_period_spec. destruct (Z.even r) eqn:E; [exact E |].
  rewrite Z.even_mul. reflexivity.
Qed.

Lemma candidate_pair_spec (base r toFactor : Z) :
  toFactor <> 0 -> 0 <= r ->
  Shor.candidate_pair base r toFactor
  = inr (Z.gcd ((base ^ (r / 2)) mod toFactor + 1) toFactor,
         Z.gcd ((base ^ (r / 2)) mod toFactor - 1) toFactor).
Proof.
  intros Hn Hr. unfold Shor.candidate_pair, gcd.
  rewrite Z.shiftr_div_pow2 by lia. change (2 ^ 1) with 2.
  rewrite pow_spec; [reflexivity | exact Hn |].
  apply Z.div_pos; lia.
Qed.

(** With the candidate always [1], doubled to [2], the exponent is [1]
    and [apowrhalf] is the base reduced modulo [toFactor]. *)
Lemma corrected_pair_unfold (toFactor base y : Z) :
  2 <= toFactor ->
  Shor.corrected_pair toFactor base y
  = Shor.composite_correction toFactor
      (Z.gcd (base mod toFactor + 1) toFactor,
       Z.gcd (base mod toFactor - 1) toFactor).
Proof.
  intros H. unfold Shor.corrected_pair.
  rewrite period_candidate_one, bind_inr by exact H.
  rewrite candidate_pair_spec by (cbn; lia).
  rewrite bind_inr. change (Shor.even_period 1 / 2) with 1.
  rewrite Z.pow_1_r. reflexivity.
Qed.

Lemma resolver_unfold (toFactor base y : Z) :
  2 <= toFactor ->
  Shor.resolver toFactor base y
  = f <- Shor.composite_correction toFactor
           (Z.gcd (base mod toFactor + 1) toFactor,
            Z.gcd (base mod toFactor - 1) toFactor) ;;
    ret (Shor.verdict toFactor f).
Proof.
  intros H. unfold Shor.resolver.
  rewrite corrected_pair_unfold by exact H. reflexivity.
Qed.

Lemma gcd_le_r (a n : Z) : 0 < n -> 0 < Z.gcd a n <= n.
Proof.
  intros H. pose proof (Z.gcd_nonneg a n) as G.
  pose proof (Z.gcd_divide_r a n) as D.
  split.
  - destruct (Z.eq_dec (Z.gcd a n) 0) as [E | E]; [| lia].
    apply Z.gcd_eq_0_r in E. lia.
  - apply Z.divide_pos_le; assumption.
Qed.

(** Below [2 ^ 53] the resolver always returns: no float conversion
    overflows and both quotients are exact. *)
Lemma corrected_pair_exact (toFactor base y : Z) :
  2 <= toFactor < 2 ^ 53 ->
  let f1 := Z.gcd (base mod toFactor + 1) toFactor in
  let f2 := Z.gcd (base mod toFactor - 1) toFactor in
  Shor.corrected_pair toFactor base y
  = inr (if negb (f1 * f2 =? toFactor) && (1 <? f1 * f2)
            && (toFactor mod (f1 * f2) =? 0)
         then (f1 * f2, toFactor / (f1 * f2))
         else (f1, f2)).
Proof.
  intros H f1 f2. rewrite corrected_pair_unfold by lia.
  apply composite_correction_exact; [lia |].
  assert (H1 : 0 < f1 <= toFactor) by (apply gcd_le_r; lia).
  assert (H2 : 0 < f2 <= toFactor) by (apply gcd_le_r; lia).
  fold f1 f2.
  assert (2 ^ 53 * 2 ^ 53 < 2 ^ 1021) by reflexivity.
  nia.
Qed.

Lemma resolver_returns_below_2_53 (toFactor base y : Z) :
  2 <= toFactor < 2 ^ 53 ->
  exists f, Shor.corrected_pair toFactor base y = inr f
            /\ Shor.resolver toFactor base y
               = inr (Shor.verdict toFactor f).
Proof.
  intros H. unfold Shor.resolver.
  rewrite (corrected_pair_exact toFactor base y H).
  eexists. split; reflexivity.
Qed.

Lemma verdict_cases (toFactor f1 f2 : Z) :
  (nontrivial_factorization toFactor f1 f2
   /\ Shor.verdict toFactor (f1, f2) = Shor.FactorsFound f1 f2 toFactor)
  \/ (~ nontrivial_factorization toFactor f1 f2
      /\ Shor.verdict toFactor (f1, f2) = Shor.Failed f1 f2).
Proof.
  unfold Shor.verdict, nontrivial_factorization.
  destruct (Z.eqb_spec (f1 * f2) toFactor) as [E | E];
    destruct (Z.ltb_spec 1 f1) as [L1 | L1];
    destruct (Z.ltb_spec 1 f2) as [L2 | L2]; cbn [andb];
    first [ left; split; [lia | reflexivity]
          | right; split; [lia | reflexivity] ].
Qed.

(** ** Runs of the cell *)

(** The output recorded in the notebook, [Factors found : 7 * 2339 =
    16373], is what the cell prints for a base such as [6], whatever is
    measured: the gcds are [(7, 1)] and the correction pass completes
    the pair. *)
Example recorded_run (y : Z) :
  Shor.candidate_pair 6 2 16373 = inr (7, 1)
  /\ Shor.factor_with 16373 6 (fun _ _ => inr y)
     = inr (Shor.FactorsFound 7 2339 16373).
Proof.
  split; [reflexivity |].
  unfold Shor.factor_with. cbn [gcd]. change (Z.gcd 6 16373) with 1.
  cbn [Z.eqb Pos.eqb negb]. rewrite bind_inr.
  rewrite resolver_unfold by lia. reflexivity.
Qed.

Example cell_runs :
  Shor.cell 15 (Shor.random 0) (fun _ _ => inl ValueError)
  = inr (Shor.ChoseNonRelativePrime 15)
  /\ Shor.cell 21 (Shor.random (2 ^ 50)) (fun _ _ => inr 1)
     = inr (Shor.FactorsFound 3 7 21)
  /\ Shor.cell 15 (Shor.random (2 ^ 52)) (fun _ _ => inr 0)
     = inr (Shor.FactorsFound 3 5 15).
Proof. repeat split. Qed.

(** ** Floats that stay finite *)

Lemma rne_le_int (a b M : Z) : 0 < b -> a <= M * b -> Float.rne a b <= M.
Proof.
  intros Hb H.
  pose proof (rne_bounds a b Hb) as [[_ U] _].
  destruct (Z.eq_dec a (M * b)) as [-> | N].
  - rewrite rne_exact by exact Hb. lia.
  - assert (a / b < M) by (apply Z.div_lt_upper_bound; lia). lia.
Qed.

Lemma rne_nonneg (a b : Z) : 0 <= a -> 0 < b -> 0 <= Float.rne a b.
Proof.
  intros Ha Hb. pose proof (rne_bounds a b Hb) as [[L _] _].
  apply Z.le_trans with (2 := L). apply Z.div_pos; lia.
Qed.

(** Below [2 ^ 52], subnormal range included, the unit in the last place
    is at most one half. *)
Lemma round_pos_below (num den : Z) :
  0 < num -> 0 < den -> num < 2 ^ 52 * den ->
  exists s,
    1 <= s <= 1074
    /\ num * 2 ^ s < 2 ^ 53 * den
    /\ Float.round_pos num den
       = Float.Finite (Float.rne (num * 2 ^ s) den) (- s).
Proof.
  intros Hn Hd Hu.
  pose proof (ilog2_bracket num den Hn Hd) as [L U].
  unfold Float.round_pos, Float.ulp_exponent, Float.prec, Float.emin,
    Float.emax.
  set (E := Float.ilog2 num den) in *.
  assert (HE : E <= 51).
  { destruct (Z.le_gt_cases E 51) as [C | C]; [exact C | exfalso].
    rewrite (shl_up den) in L by lia. rewrite (shl_down num) in L by lia.
    assert (2 ^ 52 <= 2 ^ E) by (apply Z.pow_le_mono_r; lia).
    nia. }
  set (s := - Z.max (E - (53 - 1)) (- 1074)).
  assert (Hs : 1 <= s <= 1074) by (subst s; lia).
  exists s.
  assert (Ps : 0 < 2 ^ s) by (apply Z.pow_pos_nonneg; lia).
  assert (N : num * 2 ^ s < 2 ^ 53 * den).
  { assert (H53 : 2 ^ 53 = 2 * 2 ^ 52) by reflexivity.
    destruct (Z.le_gt_cases 0 E) as [C | C].
    - rewrite (shl_up den) in U by lia. rewrite (shl_down num) in U by lia.
      replace s with (52 - E) by (subst s; lia).
      assert (X : 2 ^ 52 = 2 ^ E * 2 ^ (52 - E))
        by (rewrite <- Z.pow_add_r by lia; f_equal; lia).
      rewrite H53, X.
      set (a := 2 ^ E) in *. set (b := 2 ^ (52 - E)) in *.
      assert (0 < b) by (apply Z.pow_pos_nonneg; lia).
      assert (num * b < 2 * (den * a) * b)
        by (apply Z.mul_lt_mono_pos_r; lia).
      lia.
    - rewrite (shl_up num) in U by lia. rewrite (shl_down den) in U by lia.
      assert (Q : 2 ^ s <= 2 ^ 52 * 2 ^ (- E)).
      { rewrite <- Z.pow_add_r by lia. apply Z.pow_le_mono_r; subst s; lia. }
      rewrite H53.
      set (a := 2 ^ (- E)) in *. set (c := 2 ^ 52) in *.
      assert (0 < c) by (subst c; reflexivity).
      assert (num * 2 ^ s <= num * (c * a))
        by (apply Z.mul_le_mono_nonneg_l; lia).
      assert (num * a * c < 2 * den * c)
        by (apply Z.mul_lt_mono_pos_r; lia).
      lia. }
  split; [exact Hs |]. split; [exact N |].
  replace (Z.max (E - (53 - 1)) (- 1074)) with (- s) by (subst s; lia).
  rewrite (shl_up num) by lia. rewrite (shl_down den) by lia.
  set (m := Float.rne (num * 2 ^ s) den).
  rewrite (shl_down m) by lia.
  assert (m <= 2 ^ 53) by (apply rne_le_int; lia).
  assert (2 ^ 53 < 2 ^ 1024) by (apply Z.pow_lt_mono_r; lia).
  destruct (Z.leb_spec (2 ^ 1024) m) as [C | C]; [lia | reflexivity].
Qed.

Lemma finite_has_value (m e : Z) :
  has_value (Float.Finite m e) (Float.shl m e) (Float.shl 1 (- e)).
Proof. exists m, e. split; reflexivity. Qed.

(** A positive rational below [2 ^ 1024 - 2 ^ 970] rounds to a finite
    float, at most the greatest one; at least [1.0] when the rational
    is. *)
Lemma round_pos_between (num den : Z) :
  0 < num -> 0 < den -> num < (2 ^ 1024 - 2 ^ 970) * den ->
  float_between (Float.round_pos num den) 0 (2 ^ 1024 - 2 ^ 971)
  /\ (den <= num ->
      float_between (Float.round_pos num den) 1 (2 ^ 1024 - 2 ^ 971)).
Proof.
  intros Hn Hd Hlt.
  assert (P52 : 0 < 2 ^ 52) by reflexivity.
  assert (H53 : 2 ^ 53 = 2 * 2 ^ 52) by reflexivity.
  assert (M53 : 2 ^ 53 <= 2 ^ 1024 - 2 ^ 971) by (vm_compute; discriminate).
  set (Max := 2 ^ 1024 - 2 ^ 971) in *.
  destruct (Z.lt_ge_cases num (2 ^ 52 * den)) as [Low | High].
  - destruct (round_pos_below num den Hn Hd Low) as (s & Hs & Ns & R).
    rewrite R.
    assert (Ps : 0 < 2 ^ s) by (apply Z.pow_pos_nonneg; lia).
    pose proof (rne_nonneg (num * 2 ^ s) den ltac:(nia) Hd) as G0.
    pose proof (rne_le_int (num * 2 ^ s) den (2 ^ 53) Hd ltac:(lia)) as G1.
    pose proof (rne_bounds (num * 2 ^ s) den Hd) as [[F _] _].
    set (m := Float.rne (num * 2 ^ s) den) in *. clearbody m.
    assert (S1 : Float.shl m (- s) = m) by (apply shl_down; lia).
    assert (S2 : Float.shl 1 (- - s) = 2 ^ s).
    { rewrite Z.opp_involutive, shl_up by lia. lia. }
    assert (Up : m <= Max * 2 ^ s) by nia.
    split.
    + exists m, (- s). split; [reflexivity |]. rewrite S1, S2. lia.
    + intros Hge. exists m, (- s). split; [reflexivity |].
      rewrite S1, S2. split; [| exact Up].
      apply Z.le_trans with (2 := F).
      apply Z.div_le_lower_bound; [lia |]. nia.
  - destruct (round_pos_high num den Hn Hd High) as (e & He & Norm & R).
    rewrite R.
    assert (Pe : 0 < 2 ^ e) by (apply Z.pow_pos_nonneg; lia).
    assert (PD : 0 < den * 2 ^ e) by nia.
    pose proof (rne_bounds num (den * 2 ^ e) PD) as [[F _] [_ B]].
    pose proof (rne_le_int num (den * 2 ^ e) (2 ^ 53) PD ltac:(lia)) as G1.
    set (m := Float.rne num (den * 2 ^ e)) in *. clearbody m.
    assert (H52 : 2 ^ 52 <= m).
    { apply Z.le_trans with (2 := F).
      apply Z.div_le_lower_bound; lia. }
    assert (X : 2 ^ 1024 = 2 ^ 53 * 2 ^ 971) by reflexivity.
    assert (Y : 2 ^ 971 = 2 * 2 ^ 970) by reflexivity.
    assert (V : m * 2 ^ e <= Max).
    { destruct (Z.lt_trichotomy e 971) as [C | [C | C]].
      - assert (2 ^ e <= 2 ^ 970) by (apply Z.pow_le_mono_r; lia).
        subst Max. nia.
      - subst e.
        assert (2 ^ 971 * (2 * m) < 2 ^ 971 * (2 * 2 ^ 53)).
        { assert (2 * (den * 2 ^ 971) * m
                  < 2 * (2 ^ 53 * (den * 2 ^ 971))) by lia.
          nia. }
        assert (m < 2 ^ 53) by nia.
        subst Max. nia.
      - exfalso.
        assert (2 ^ 972 <= 2 ^ e) by (apply Z.pow_le_mono_r; lia).
        assert (2 ^ 972 = 2 * 2 ^ 971) by reflexivity.
        assert (2 ^ 52 * 2 ^ e * den < 2 ^ 1024 * den) by nia.
        assert (2 ^ 52 * 2 ^ e < 2 ^ 1024) by nia.
        nia. }
    assert (Fin : m * 2 ^ e < 2 ^ 1024) by (subst Max; lia).
    destruct (Z.leb_spec (2 ^ 1024) (m * 2 ^ e)) as [C | _]; [lia |].
    assert (S1 : Float.shl m e = m * 2 ^ e) by (apply shl_up; lia).
    assert (S2 : Float.shl 1 (- e) = 1) by (apply shl_down; lia).
    split.
    + exists m, e. split; [reflexivity |]. rewrite S1, S2. nia.
    + intros _. exists m, e. split; [reflexivity |]. rewrite S1, S2. nia.
Qed.

Lemma of_int_between (n : Z) :
  0 < n < 2 ^ 1024 - 2 ^ 970 ->
  exists x, Float.of_int n = inr x
            /\ float_between x 1 (2 ^ 1024 - 2 ^ 971).
Proof.
  intros Hn. unfold Float.of_int. rewrite round_of_pos by lia.
  destruct (round_pos_between n 1) as [_ B]; try lia.
  destruct (B ltac:(lia)) as (m & e & R & V).
  rewrite R. exists (Float.Finite m e). split; [reflexivity |].
  exists m, e. split; [reflexivity | exact V].
Qed.

Lemma float_quotient_returns (toFactor d : Z) :
  0 < toFactor < 2 ^ 1024 - 2 ^ 970 -> 0 < d < 2 ^ 1024 - 2 ^ 970 ->
  returns (Shor.float_quotient toFactor d).
Proof.
  intros HN Hd. unfold Shor.float_quotient.
  assert (TM : 2 ^ 1024 - 2 ^ 971 < 2 ^ 1024 - 2 ^ 970)
    by (vm_compute; reflexivity).
  assert (M0 : 0 < 2 ^ 1024 - 2 ^ 971) by (vm_compute; reflexivity).
  set (T := 2 ^ 1024 - 2 ^ 970) in *.
  set (Max := 2 ^ 1024 - 2 ^ 971) in *.
  destruct (of_int_between toFactor HN) as (x & Hx & m0 & e0 & -> & V0).
  rewrite Hx, bind_inr.
  pose proof (shl_pos 1 (- e0) ltac:(lia)) as B0.
  set (b0 := Float.shl 1 (- e0)) in *.
  assert (A0 : 0 < Float.shl m0 e0) by lia.
  rewrite (mul_value _ _ 1 1 _ _ has_value_one (finite_has_value m0 e0))
    by lia.
  rewrite !Z.mul_1_l. fold b0.
  destruct (round_pos_between (Float.shl m0 e0) b0) as [_ B1];
    [lia | lia | nia |].
  destruct (B1 ltac:(lia)) as (m1 & e1 & R1 & V1). rewrite R1.
  destruct (of_int_between d Hd) as (y & Hy & m2 & e2 & -> & V2).
  rewrite Hy, bind_inr.
  pose proof (shl_pos 1 (- e1) ltac:(lia)) as Pb1.
  pose proof (shl_pos 1 (- e2) ltac:(lia)) as Pb2.
  set (b1 := Float.shl 1 (- e1)) in *.
  set (b2 := Float.shl 1 (- e2)) in *.
  rewrite (truediv_value _ _ _ _ _ _ (finite_has_value m1 e1)
             (finite_has_value m2 e2)) by (fold b1 b2; lia).
  fold b1 b2. rewrite bind_inr.
  set (a1 := Float.shl m1 e1) in *. set (a2 := Float.shl m2 e2) in *.
  destruct (round_pos_between (a1 * b2) (b1 * a2)) as [B3 _].
  - nia.
  - nia.
  - assert (a1 * b2 <= Max * b1 * b2)
      by (apply Z.mul_le_mono_nonneg_r; lia).
    assert (Max * b1 * b2 <= Max * b1 * a2).
    { apply Z.mul_le_mono_nonneg_l; [nia | lia]. }
    assert (Max * (b1 * a2) < T * (b1 * a2)).
    { apply Z.mul_lt_mono_pos_r; [nia | lia]. }
    lia.
  - destruct B3 as (m3 & e3 & R3 & _). rewrite R3.
    eexists. reflexivity.
Qed.

Lemma int_quotient_returns (toFactor d : Z) :
  0 < toFactor < 2 ^ 1024 - 2 ^ 970 -> 0 < d ->
  returns (Shor.int_quotient toFactor d).
Proof.
  intros HN Hd. unfold Shor.int_quotient, Float.int_truediv.
  destruct (Z.eqb_spec d 0) as [C | _]; [lia |].
  rewrite Z.sgn_pos, Z.abs_eq, Z.mul_1_l by lia.
  rewrite round_of_pos by lia.
  destruct (round_pos_between toFactor d) as [(m & e & R & _) _];
    [lia | lia | nia |].
  rewrite R. eexists. reflexivity.
Qed.

(** The correction pass returns when the number to factor and the
    product of the pair convert to floats. *)
Lemma composite_correction_returns (toFactor f1 f2 : Z) :
  0 < toFactor < 2 ^ 1024 - 2 ^ 970 -> f1 * f2 < 2 ^ 1024 - 2 ^ 970 ->
  returns (Shor.composite_correction toFactor (f1, f2)).
Proof.
  intros HN Hd. unfold Shor.composite_correction.
  destruct (Z.eqb_spec (f1 * f2) toFactor) as [E | E]; cbn [negb andb];
    [eexists; reflexivity |].
  destruct (Z.ltb_spec 1 (f1 * f2)) as [L | L]; [| eexists; reflexivity].
  destruct (float_quotient_returns toFactor (f1 * f2) HN ltac:(lia))
    as (k & Hk).
  rewrite Hk, bind_inr.
  destruct (Z.eqb_spec (k * f1 * f2) toFactor) as [D | D];
    [| eexists; reflexivity].
  destruct (int_quotient_returns toFactor (f1 * f2) HN ltac:(lia))
    as (k' & Hk').
  rewrite Hk', bind_inr. eexists. reflexivity.
Qed.

(** ** The product of the two gcds *)

(** For an odd [n] the two gcds taken by the resolver are co-prime, so
    their product divides [n]. *)
Lemma gcd_pair_product_divides (a n : Z) :
  Z.odd n = true ->
  (Z.gcd (a + 1) n * Z.gcd (a - 1) n | n).
Proof.
  intros Hodd.
  set (f1 := Z.gcd (a + 1) n). set (f2 := Z.gcd (a - 1) n).
  assert (C : Z.gcd f2 f1 = 1).
  { pose proof (Z.gcd_nonneg f2 f1) as G.
    assert (D2 : (Z.gcd f2 f1 | 2)).
    { replace 2 with ((a + 1) - (a - 1)) by lia.
      apply Z.divide_sub_r.
      - eapply Z.divide_trans; [apply Z.gcd_divide_r |].
        apply Z.gcd_divide_l.
      - eapply Z.divide_trans; [apply Z.gcd_divide_l |].
        apply Z.gcd_divide_l. }
    assert (Dn : (Z.gcd f2 f1 | n)).
    { eapply Z.divide_trans; [apply Z.gcd_divide_l |].
      apply Z.gcd_divide_r. }
    apply Z.divide_pos_le in D2; [| lia].
    assert (Z.gcd f2 f1 <> 0).
    { intros E. rewrite E in Dn. apply Z.divide_0_l in Dn.
      subst n. discriminate Hodd. }
    assert (Z.gcd f2 f1 <> 2).
    { intros E. rewrite E in Dn. destruct Dn as [k Hk].
      rewrite Hk, Z.odd_mul in Hodd.
      rewrite andb_false_r in Hodd. discriminate Hodd. }
    lia. }
  destruct (Z.gcd_divide_r (a + 1) n) as [k Hk]. fold f1 in Hk.
  assert (D : (f2 | k)).
  { apply Z.gauss with (m := f1); [| exact C].
    rewrite Z.mul_comm, <- Hk. apply Z.gcd_divide_r. }
  destruct D as [j Hj]. exists j. rewrite Hk, Hj. ring.
Qed.

Lemma gcd_pair_product_divides_twice (x n : Z) :
  (Z.gcd (x + 1) n * Z.gcd (x - 1) n | 2 * n).
Proof.
  set (f1 := Z.gcd (x + 1) n). set (f2 := Z.gcd (x - 1) n).
  assert (D2 : (Z.gcd f1 f2 | 2)).
  { replace 2 with ((x + 1) - (x - 1)) by lia.
    apply Z.divide_sub_r.
    - eapply Z.divide_trans; [apply Z.gcd_divide_l |].
      apply Z.gcd_divide_l.
    - eapply Z.divide_trans; [apply Z.gcd_divide_r |].
      apply Z.gcd_divide_l. }
  destruct (Z.gcd_bezout f1 f2 (Z.gcd f1 f2) eq_refl) as (u & v & B).
  destruct (Z.gcd_divide_r (x + 1) n) as [k1 H1]. fold f1 in H1.
  destruct (Z.gcd_divide_r (x - 1) n) as [k2 H2]. fold f2 in H2.
  destruct D2 as [c Hc].
  exists (c * (u * k2 + v * k1)).
  rewrite Hc.
  replace (c * Z.gcd f1 f2 * n)
    with (c * (u * f1 * n + v * f2 * n)) by (rewrite <- B; ring).
  transitivity (c * (u * f1 * (k2 * f2) + v * f2 * (k1 * f1))).
  - rewrite <- H2, <- H1. reflexivity.
  - ring.
Qed.

(** ** The bases the cell can draw *)

Lemma drawn_below_overflow (toFactor base : Z) :
  drawn toFactor base -> toFactor < 2 ^ 1024 - 2 ^ 970.
Proof.
  intros (k & _ & H).
  destruct (Z.lt_ge_cases toFactor (2 ^ 1024 - 2 ^ 970)) as [C | C];
    [exact C |].
  rewrite sample_base_overflow in H by exact C. discriminate H.
Qed.

(** From [2 ^ 106] on, the product [random.random() * toFactor] is zero
    or at least [2 ^ 53], where every float is an even integer. *)
Lemma drawn_even (toFactor base : Z) :
  2 ^ 106 <= toFactor -> drawn toFactor base -> Z.even base = true.
Proof.
  intros HN (k & Hk & H).
  assert (P52 : 0 < 2 ^ 52) by reflexivity.
  assert (P53 : 0 < 2 ^ 53) by reflexivity.
  assert (H53 : 2 ^ 53 = 2 * 2 ^ 52) by reflexivity.
  assert (H106 : 2 ^ 106 = 2 ^ 53 * 2 ^ 53) by reflexivity.
  assert (Hpos : 0 < toFactor) by lia.
  unfold Shor.sample_base in H.
  apply bind_returns in H. destruct H as (x & Hx & H).
  unfold Float.of_int in Hx. rewrite round_of_pos in Hx by lia.
  destruct (round_pos_high toFactor 1) as (e & He & Norm & R); try lia.
  rewrite R in Hx. rewrite !Z.mul_1_l in *.
  assert (Pe : 0 < 2 ^ e) by (apply Z.pow_pos_nonneg; lia).
  pose proof (rne_bounds toFactor (2 ^ e) Pe) as [[F1 _] _].
  set (m := Float.rne toFactor (2 ^ e)) in *. clearbody m.
  destruct (Z.leb_spec (2 ^ 1024) (m * 2 ^ e)) as [C | Fin];
    [discriminate Hx |].
  inversion Hx; subst x; clear Hx.
  assert (Hm : 2 ^ 52 <= m).
  { apply Z.le_trans with (2 := F1). apply Z.div_le_lower_bound; lia. }
  assert (He54 : 2 ^ 54 <= 2 ^ e).
  { apply Z.pow_le_mono_r; [lia |].
    destruct (Z.le_gt_cases 54 e) as [C | C]; [exact C | exfalso].
    assert (2 ^ e <= 2 ^ 53) by (apply Z.pow_le_mono_r; lia).
    nia. }
  assert (H54 : 2 ^ 54 = 2 * 2 ^ 53) by reflexivity.
  assert (V : has_value (Float.Finite m e) (m * 2 ^ e) 1).
  { exists m, e. split; [reflexivity |].
    rewrite shl_up by lia. rewrite shl_down by lia. ring. }
  destruct (Z.eq_dec k 0) as [-> | K].
  - unfold Shor.random in H. cbn [Float.mul] in H.
    rewrite Z.mul_0_l in H. unfold Float.shl at 1 in H.
    rewrite Z.mul_0_l in H. cbn in H. inversion H. reflexivity.
  - assert (HmP : 0 < m * 2 ^ e) by nia.
    rewrite (mul_value _ _ k (2 ^ 53) (m * 2 ^ e) 1
               (has_value_random k) V) in H by lia.
    rewrite Z.mul_1_r in H.
    assert (Big : 2 ^ 106 <= m * 2 ^ e) by nia.
    assert (HX : 2 ^ 106 <= k * (m * 2 ^ e)) by nia.
    destruct (round_pos_high (k * (m * 2 ^ e)) (2 ^ 53))
      as (e' & He' & N' & R'); try lia.
    rewrite R' in H.
    assert (He1 : 1 <= e').
    { destruct (Z.eq_dec e' 0) as [-> | ]; [| lia].
      rewrite Z.pow_0_r in N'. lia. }
    set (m' := Float.rne (k * (m * 2 ^ e)) (2 ^ 53 * 2 ^ e')) in *.
    clearbody m'.
    destruct (Z.leb_spec (2 ^ 1024) (m' * 2 ^ e')) as [C | _];
      [discriminate H |].
    rewrite to_int_up in H by lia. inversion H.
    replace e' with (Z.succ (e' - 1)) by lia.
    rewrite Z.pow_succ_r by lia.
    rewrite Z.even_mul, Z.even_mul. cbn [Z.even].
    rewrite orb_true_r. reflexivity.
Qed.

(** ** The resolver on every number the cell can pass *)

Lemma resolver_returns (toFactor base y : Z) :
  2 <= toFactor -> Z.gcd base toFactor = 1 ->
  toFactor < 2 ^ 1023 - 2 ^ 969 \/ drawn toFactor base ->
  exists f, Shor.corrected_pair toFactor base y = inr f
            /\ Shor.resolver toFactor base y
               = inr (Shor.verdict toFactor f).
Proof.
  intros HN G Hyp.
  assert (T2 : 2 * (2 ^ 1023 - 2 ^ 969) = 2 ^ 1024 - 2 ^ 970)
    by reflexivity.
  assert (B106 : 2 ^ 106 < 2 ^ 1023 - 2 ^ 969) by reflexivity.
  rewrite resolver_unfold, corrected_pair_unfold by exact HN.
  set (x := base mod toFactor).
  pose proof (gcd_le_r (x + 1) toFactor ltac:(lia)) as G1.
  pose proof (gcd_le_r (x - 1) toFactor ltac:(lia)) as G2.
  assert (Small : toFactor < 2 ^ 1024 - 2 ^ 970
                  /\ Z.gcd (x + 1) toFactor * Z.gcd (x - 1) toFactor
                     < 2 ^ 1024 - 2 ^ 970).
  { assert (Twice : toFactor < 2 ^ 1023 - 2 ^ 969 ->
                    Z.gcd (x + 1) toFactor * Z.gcd (x - 1) toFactor
                    < 2 ^ 1024 - 2 ^ 970).
    { intros C.
      pose proof (gcd_pair_product_divides_twice x toFactor) as D.
      apply Z.divide_pos_le in D; lia. }
    destruct Hyp as [C | D]; [split; [lia | exact (Twice C)] |].
    pose proof (drawn_below_overflow _ _ D) as O.
    split; [exact O |].
    destruct (Z.lt_ge_cases toFactor (2 ^ 1023 - 2 ^ 969)) as [C | C];
      [exact (Twice C) |].
    pose proof (drawn_even toFactor base ltac:(lia) D) as Ev.
    destruct (Z.odd toFactor) eqn:Odd.
    - pose proof (gcd_pair_product_divides x toFactor Odd) as Dv.
      apply Z.divide_pos_le in Dv; lia.
    - exfalso.
      assert (D2 : (2 | Z.gcd base toFactor)).
      { apply Z.gcd_greatest.
        - apply Z.even_spec in Ev. destruct Ev as [j ->].
          exists j. ring.
        - rewrite <- Z.negb_even in Odd.
          apply negb_false_iff, Z.even_spec in Odd.
          destruct Odd as [j ->]. exists j. ring. }
      rewrite G in D2. apply Z.divide_pos_le in D2; lia. }
  destruct Small as [S1 S2].
  destruct (composite_correction_returns toFactor _ _
              ltac:(lia) S2) as (f & Hf).
  exists f. rewrite Hf. split; reflexivity.
Qed.

(** With the base forced to [5] at [N = 3 * 2 ^ 1024], lines 706-719
    alone raise [OverflowError] at [1.0 * toFactor].  The cell never
    gets there: for such an [N] line 687 raises first, whatever is
    drawn. *)
Example forced_base_overflow :
  let N := 3 * 2 ^ 1024 in
  Shor.candidate_pair 5 2 N = inr (6, 4)
  /\ Shor.resolver N 5 0 = inl OverflowError
  /\ ~ drawn N 5.
Proof.
  split; [vm_compute; reflexivity |].
  split; [vm_compute; reflexivity |].
  intros D. apply drawn_below_overflow in D. vm_compute in D.
  discriminate D.
Qed.

Lemma cell_overflow
    (toFactor : Z) (u : Float.t) (measure : Z -> Z -> py Z) :
  2 ^ 1024 - 2 ^ 970 <= toFactor ->
  Shor.cell toFactor u measure = inl OverflowError.
Proof.
  intros H. unfold Shor.cell.
  rewrite sample_base_overflow by exact H. reflexivity.
Qed.

(** * The claims *)

(** C1.  The claim asks that the period candidate be the denominator of
    the best rational approximation of [y / 2 ^ n] under the bound
    [N - 1].  The cell hands the integer [y] to [Fraction], never
    [y / 2 ^ n]: at [N = 15], [y = 4] (so [n = 4]) the candidate is [1],
    while the phase [4 / 16] has the best approximation [1 / 4] and no
    fraction of denominator [1] is a best approximation of it. *)
Theorem period_candidate_ignores_phase :
  qubitCount 15 = 4
  /\ Shor.period_candidate 4 15 = inr 1
  /\ phase_period 4 (qubitCount 15) 15 = inr 4
  /\ best_approximation 4 (2 ^ qubitCount 15) (15 - 1) 1 4
  /\ forall p : Z, ~ best_approximation 4 (2 ^ qubitCount 15) (15 - 1) p 1.
Proof.
  split; [reflexivity |]. split; [reflexivity |].
  split; [reflexivity |]. change (qubitCount 15) with 4.
  split.
  - split; [lia |]. intros p' q' Hq. change (2 ^ 4) with 16. lia.
  - intros p [_ H]. specialize (H 1 4 ltac:(lia)).
    change (2 ^ 4) with 16 in H. lia.
Qed.

(** C2.  For a fixed [N >= 2] and a base co-prime to [N], any two
    measured outcomes in the range of the phase register give the same
    resolver result: the period candidate is [1] for both, doubled to
    [2], the exponent is [1] and [apowrhalf] is [a mod N], so neither the
    corrected pair nor the verdict depends on the measurement. *)
Theorem resolver_ignores_measurement (N a n y y' : Z) :
  2 <= N -> Z.gcd a N = 1 ->
  0 <= y < 2 ^ n -> 0 <= y' < 2 ^ n ->
  Shor.period_candidate y N = inr 1
  /\ Shor.period_candidate y' N = inr 1
  /\ Shor.even_period 1 = 2
  /\ pow a (Z.shiftr (Shor.even_period 1) 1) N = inr (a mod N)
  /\ Shor.corrected_pair N a y = Shor.corrected_pair N a y'
  /\ Shor.resolver N a y = Shor.resolver N a y'.
Proof.
  intros HN _ _ _.
  split; [apply period_candidate_one; exact HN |].
  split; [apply period_candidate_one; exact HN |].
  split; [reflexivity |].
  split.
  - change (Z.shiftr (Shor.even_period 1) 1) with 1.
    rewrite pow_spec by lia. rewrite Z.pow_1_r. reflexivity.
  - split.
    + rewrite !corrected_pair_unfold by exact HN. reflexivity.
    + rewrite !resolver_unfold by exact HN. reflexivity.
Qed.

Lemma resolver_ignores_measurement_witness :
  2 <= 15 /\ Z.gcd 7 15 = 1 /\ 0 <= 4 < 2 ^ 4 /\ 0 <= 11 < 2 ^ 4
  /\ Shor.resolver 15 7 4 = Shor.resolver 15 7 11.
Proof.
  split; [lia |]. split; [reflexivity |].
  split; [split; [lia | reflexivity] |].
  split; [split; [lia | reflexivity] |].
  apply (resolver_ignores_measurement 15 7 4 4 11).
  - lia.
  - reflexivity.
  - split; [lia | reflexivity].
  - split; [lia | reflexivity].
Defined.



(** C4.  Whenever the resolver returns, it reports on the pair left by
    the correction pass: it declares success exactly when that pair
    multiplies to [N] with both members above [1], and reports failure
    with the same pair otherwise; so every pair reported as found is a
    nontrivial factorization of [N]. *)
Theorem resolver_success_iff (N a y : Z) (out : Shor.output) :
  Shor.resolver N a y = inr out ->
  exists f1 f2,
    Shor.corrected_pair N a y = inr (f1, f2)
    /\ (out = Shor.FactorsFound f1 f2 N
        <-> f1 * f2 = N /\ 1 < f1 /\ 1 < f2)
    /\ (out = Shor.Failed f1 f2
        <-> ~ (f1 * f2 = N /\ 1 < f1 /\ 1 < f2))
    /\ forall g1 g2 M,
        out = Shor.FactorsFound g1 g2 M ->
        g1 * g2 = N /\ 1 < g1 /\ 1 < g2 /\ (g1, g2) = (f1, f2) /\ M = N.
Proof.
  intros H. unfold Shor.resolver in H.
  apply bind_returns in H. destruct H as ([f1 f2] & Hc & Hv).
  exists f1, f2. split; [exact Hc |].
  assert (E : out = Shor.verdict N (f1, f2)) by (inversion Hv; reflexivity).
  destruct (verdict_cases N f1 f2) as [[F V] | [F V]];
    rewrite V in E; subst out; unfold nontrivial_factorization in F.
  - split; [split; [intros _; exact F | reflexivity] |].
    split; [split; [discriminate | intros C; contradiction] |].
    intros g1 g2 M G. inversion G; subst. intuition.
  - split; [split; [discriminate | intros C; contradiction] |].
    split; [split; [intros _; exact F | reflexivity] |].
    intros g1 g2 M G. discriminate G.
Qed.

Lemma resolver_success_iff_witness :
  Shor.resolver 15 7 4 = inr (Shor.FactorsFound 3 5 15)
  /\ exists f1 f2,
      Shor.corrected_pair 15 7 4 = inr (f1, f2)
      /\ (Shor.FactorsFound 3 5 15 = Shor.FactorsFound f1 f2 15
          <-> f1 * f2 = 15 /\ 1 < f1 /\ 1 < f2)
      /\ (Shor.FactorsFound 3 5 15 = Shor.Failed f1 f2
          <-> ~ (f1 * f2 = 15 /\ 1 < f1 /\ 1 < f2))
      /\ forall g1 g2 M,
          Shor.FactorsFound 3 5 15 = Shor.FactorsFound g1 g2 M ->
          g1 * g2 = 15 /\ 1 < g1 /\ 1 < g2 /\ (g1, g2) = (f1, f2)
          /\ M = 15.
Proof.
  split; [reflexivity |].
  apply (resolver_success_iff 15 7 4 (Shor.FactorsFound 3 5 15)).
  reflexivity.
Defined.

(** C5.  For [N = 15], [a = 7] and the outcome [y = 4] of a phase
    register of [n = 4] qubits the resolver succeeds with the pair
    [(3, 5)]. *)
Theorem resolver_15_7_4 :
  qubitCount 15 = 4 /\ 0 <= 4 < 2 ^ qubitCount 15
  /\ Shor.resolver 15 7 4 = inr (Shor.FactorsFound 3 5 15).
Proof.
  split; [reflexivity |].
  split; [split; [lia | reflexivity] |].
  reflexivity.
Qed.

(** C6, as stated, fails: the measurement [y = 0] does not make the
    period candidate [0], and at [N = 15], [a = 7] the resolver run on
    [y = 0] declares success with [(3, 5)]. *)
Lemma zero_measurement_can_succeed :
  ~ (forall N a : Z,
        2 <= N -> 1 < a < N -> Z.gcd a N = 1 ->
        exists f1 f2, Shor.resolver N a 0 = inr (Shor.Failed f1 f2)).
Proof.
  intros H. destruct (H 15 7) as (f1 & f2 & E).
  - lia.
  - lia.
  - reflexivity.
  - vm_compute in E. discriminate E.
Qed.

(** C6, amended.  For [N >= 2] and a base [a] with [1 < a < N] co-prime
    to [N] that the cell can pass to the resolver (a base line 687 can
    draw; below [2 ^ 1023 - 2 ^ 969], any base), the resolver run on
    [y = 0] does not raise: the period candidate is [1], the pair before
    correction is [(gcd (a + 1) N, gcd (a - 1) N)], and the run returns
    the verdict on the corrected pair, which is a failure report exactly
    when that pair is not a nontrivial factorization of [N] and a
    success otherwise. *)
Theorem resolver_zero_measurement (N a : Z) :
  2 <= N -> 1 < a < N -> Z.gcd a N = 1 ->
  N < 2 ^ 1023 - 2 ^ 969 \/ drawn N a ->
  returns (Shor.resolver N a 0)
  /\ Shor.period_candidate 0 N = inr 1
  /\ exists f1 f2,
      Shor.composite_correction N (Z.gcd (a + 1) N, Z.gcd (a - 1) N)
      = inr (f1, f2)
      /\ Shor.corrected_pair N a 0 = inr (f1, f2)
      /\ (Shor.resolver N a 0 = inr (Shor.Failed f1 f2)
          <-> ~ nontrivial_factorization N f1 f2)
      /\ (Shor.resolver N a 0 = inr (Shor.FactorsFound f1 f2 N)
          <-> nontrivial_factorization N f1 f2).
Proof.
  intros HN Ha G Hyp.
  destruct (resolver_returns N a 0 HN G Hyp) as ([f1 f2] & Hc & Hr).
  split; [eexists; exact Hr |].
  split; [apply period_candidate_one; lia |].
  exists f1, f2.
  split.
  - rewrite corrected_pair_unfold in Hc by lia.
    rewrite Z.mod_small in Hc by lia. exact Hc.
  - split; [exact Hc |]. rewrite Hr.
    destruct (verdict_cases N f1 f2) as [[F V] | [F V]]; rewrite V.
    + split; split; intros X;
        first [discriminate X | contradiction | reflexivity | exact F].
    + split; split; intros X;
        first [discriminate X | contradiction | reflexivity | exact F].
Qed.

Lemma resolver_zero_measurement_witness :
  2 ^ 1023 - 2 ^ 969 <= 2 ^ 1023 + 1
  /\ drawn (2 ^ 1023 + 1) (2 ^ 1022)
  /\ returns (Shor.resolver (2 ^ 1023 + 1) (2 ^ 1022) 0).
Proof.
  assert (D : drawn (2 ^ 1023 + 1) (2 ^ 1022)).
  { exists (2 ^ 52). split; [split; [discriminate | reflexivity] |].
    vm_compute. reflexivity. }
  split; [discriminate |]. split; [exact D |].
  apply (resolver_zero_measurement (2 ^ 1023 + 1) (2 ^ 1022)).
  - discriminate.
  - split; reflexivity.
  - vm_compute. reflexivity.
  - right. exact D.
Defined.

(** C7.  For every period candidate [r] of the continued-fraction step
    (a denominator, so [0 <= r]) the pair before correction is
    [(gcd (x + 1) N, gcd (x - 1) N)] with [x = a ^ (r' / 2) mod N], where
    [r'] is [r] when [r] is even and [2 * r] when it is odd; the resolver
    goes on with that pair. *)
Theorem candidate_pair_from_period (N a r : Z) :
  2 <= N -> 0 <= r ->
  let r' := if Z.even r then r else 2 * r in
  let x := (a ^ (r' / 2)) mod N in
  Shor.even_period r = r'
  /\ pow a (Z.shiftr r' 1) N = inr x
  /\ Shor.candidate_pair a (Shor.even_period r) N
     = inr (Z.gcd (x + 1) N, Z.gcd (x - 1) N)
  /\ forall y,
      Shor.period_candidate y N = inr r ->
      Shor.corrected_pair N a y
      = Shor.composite_correction N (Z.gcd (x + 1) N, Z.gcd (x - 1) N).
Proof.
  intros HN Hr r' x.
  assert (E : Shor.even_period r = r') by apply even_period_spec.
  assert (Hr' : 0 <= r') by (subst r'; destruct (Z.even r); lia).
  assert (C : Shor.candidate_pair a (Shor.even_period r) N
              = inr (Z.gcd (x + 1) N, Z.gcd (x - 1) N)).
  { rewrite E. apply candidate_pair_spec; lia. }
  split; [exact E |]. split.
  - rewrite Z.shiftr_div_pow2 by lia. change (2 ^ 1) with 2.
    apply pow_spec; [lia |]. apply Z.div_pos; lia.
  - split; [exact C |].
    intros y Hy. unfold Shor.corrected_pair.
    rewrite Hy, bind_inr, C, bind_inr. reflexivity.
Qed.

Lemma candidate_pair_from_period_witness :
  2 <= 15 /\ 0 <= 3
  /\ Shor.even_period 3 = 6
  /\ Shor.candidate_pair 7 (Shor.even_period 3) 15 = inr (1, 3).
Proof.
  split; [lia |]. split; [lia |].
  pose proof (candidate_pair_from_period 15 7 3 ltac:(lia) ltac:(lia))
    as (E & _ & C & _).
  split; [exact E | exact C].
Defined.

(** C8.  The claim is that the pair is replaced whenever [f1 * f2]
    differs from [N], exceeds [1] and divides [N].  At
    [N = 2 ^ 53 + 1] with the pair [(3, 1)] (the gcds for the base [2])
    all three hold, [N / 3 = 3002399751580331], yet
    [int(1.0 * N / 3)] is [3002399751580330]: the float test fails, the
    pair stays [(3, 1)] and the resolver reports failure. *)
Theorem composite_correction_misses_divisor :
  let N := 2 ^ 53 + 1 in
  3 * 1 <> N /\ 1 < 3 * 1 /\ N mod (3 * 1) = 0
  /\ N / (3 * 1) = 3002399751580331
  /\ Shor.float_quotient N (3 * 1) = inr 3002399751580330
  /\ Shor.composite_correction N (3, 1) = inr (3, 1)
  /\ Shor.candidate_pair 2 2 N = inr (3, 1)
  /\ Shor.resolver N 2 0 = inr (Shor.Failed 3 1).
Proof. vm_compute. repeat split; discriminate. Qed.

(** C9, as stated, fails: the draw [0.0] samples the base [0], whose
    gcd with [N] is [N] itself; at [N = 15] the gate reports [15], not
    a nontrivial factor. *)
Lemma zero_base_reports_the_number :
  ~ (forall (N k a : Z) (measure : Z -> Z -> py Z),
        2 <= N -> 0 <= k < 2 ^ 53 ->
        Shor.sample_base (Shor.random k) N = inr a ->
        Z.gcd a N <> 1 ->
        exists g,
          Shor.factor_with N a measure = inr (Shor.ChoseNonRelativePrime g)
          /\ nontrivial_factor g N).
Proof.
  intros H.
  destruct (H 15 0 0 (fun _ _ => inl ValueError)) as (g & E & _ & B).
  - lia.
  - split; [lia | reflexivity].
  - reflexivity.
  - discriminate.
  - vm_compute in E. inversion E; subst g. lia.
Qed.

(** C9, amended.  For [N >= 2] and a sampled base [a] other than [0]
    (so [1 <= a <= N - 1]) that is not co-prime to [N], the cell reports
    [gcd a N] straight from the gate, whatever the quantum subroutine
    would do (even if it raised): neither it nor the resolver runs.  The
    reported value is a nontrivial factor of [N]. *)
Theorem coprime_gate_bypasses_resolver
    (N a : Z) (measure : Z -> Z -> py Z) :
  2 <= N -> 1 <= a <= N - 1 -> Z.gcd a N <> 1 ->
  Shor.factor_with N a measure
  = inr (Shor.ChoseNonRelativePrime (Z.gcd a N))
  /\ Shor.factor_with N a measure
     = Shor.factor_with N a (fun _ _ => inl ValueError)
  /\ nontrivial_factor (Z.gcd a N) N.
Proof.
  intros HN Ha Hg.
  assert (E : forall m, Shor.factor_with N a m
                        = inr (Shor.ChoseNonRelativePrime (Z.gcd a N))).
  { intros m. unfold Shor.factor_with, gcd.
    destruct (Z.eqb_spec (Z.gcd a N) 1) as [C | _]; [contradiction |].
    reflexivity. }
  split; [apply E |]. split; [rewrite !E; reflexivity |].
  pose proof (gcd_le_r a N ltac:(lia)) as [G _].
  split; [apply Z.gcd_divide_r |].
  split; [lia |].
  pose proof (Z.gcd_divide_l a N) as D.
  apply Z.divide_pos_le in D; lia.
Qed.

Lemma coprime_gate_bypasses_resolver_witness :
  2 <= 21 /\ 1 <= 3 <= 21 - 1 /\ Z.gcd 3 21 <> 1
  /\ Shor.factor_with 21 3 (fun _ _ => inl OverflowError)
     = inr (Shor.ChoseNonRelativePrime 3)
  /\ nontrivial_factor 3 21.
Proof.
  split; [lia |]. split; [lia |]. split; [discriminate |].
  pose proof (coprime_gate_bypasses_resolver 21 3
                (fun _ _ => inl OverflowError)
                ltac:(lia) ltac:(lia) ltac:(discriminate))
    as (E & _ & F).
  split; [exact E | exact F].
Defined.

(** C10, as stated, fails: the draw [0.0] gives the base [0], below
    the claimed range. *)
Lemma sampled_base_can_be_zero :
  ~ (forall N k : Z,
        2 <= N -> 0 <= k < 2 ^ 53 ->
        exists a,
          Shor.sample_base (Shor.random k) N = inr a /\ 2 <= a <= N - 1).
Proof.
  intros H. destruct (H 15 0) as (a & E & B).
  - lia.
  - split; [lia | reflexivity].
  - vm_compute in E. inversion E; subst a. lia.
Qed.

(** C10, amended.  For every [N >= 2] that converts to a float, that is
    [N < 2 ^ 1024 - 2 ^ 970] (from there on the sampling step raises
    [OverflowError] and computes no base), and every draw
    [u = k / 2 ^ 53] of the generator, the sampling step returns an
    integer base in [[0, N - 1]]. *)
Theorem sampled_base_in_range (N k : Z) :
  2 <= N < 2 ^ 1024 - 2 ^ 970 -> 0 <= k < 2 ^ 53 ->
  exists a,
    Shor.sample_base (Shor.random k) N = inr a /\ 0 <= a <= N - 1.
Proof.
  intros HN Hk. apply sample_base_range_general; [lia | exact Hk].
Qed.

Lemma sampled_base_in_range_witness :
  2 <= 15 < 2 ^ 1024 - 2 ^ 970 /\ 0 <= 2 ^ 52 < 2 ^ 53
  /\ exists a,
      Shor.sample_base (Shor.random (2 ^ 52)) 15 = inr a
      /\ 0 <= a <= 15 - 1.
Proof.
  split; [split; [lia | reflexivity] |].
  split; [split; [discriminate | reflexivity] |].
  apply (sampled_base_in_range 15 (2 ^ 52)).
  - split; [lia | reflexivity].
  - split; [discriminate | reflexivity].
Defined.

(** * Further properties of the notebooks *)

(** ** The registers of the quantum subroutine *)

Lemma range_length (n : Z) : length (Registers.range n) = Z.to_nat n.
Proof. unfold Registers.range. rewrite length_map, length_seq. reflexivity. Qed.

Lemma range_In (n q : Z) : In q (Registers.range n) <-> 0 <= q < n.
Proof.
  unfold Registers.range. rewrite in_map_iff. split.
  - intros (i & <- & Hi). apply in_seq in Hi. lia.
  - intros H. exists (Z.to_nat q). split; [lia |]. apply in_seq. lia.
Qed.

Lemma seq_offset (n : Z) (k s : nat) :
  0 <= n ->
  List.map Z.of_nat (seq (Z.to_nat n + s) k)
  = List.map (fun i => i + n) (List.map Z.of_nat (seq s k)).
Proof.
  intros Hn. revert s. induction k as [| k IH]; intros s.
  - reflexivity.
  - cbn [seq List.map]. f_equal; [lia |].
    rewrite <- IH. f_equal. f_equal. lia.
Qed.

Lemma range_add (n m : Z) :
  0 <= n -> 0 <= m ->
  Registers.range (n + m)
  = Registers.range n ++ List.map (fun i => i + n) (Registers.range m).
Proof.
  intros Hn Hm. unfold Registers.range.
  rewrite Z2Nat.inj_add, seq_app, map_app by lia. f_equal.
  rewrite <- seq_offset by lia. f_equal. f_equal. lia.
Qed.

Lemma range_NoDup (n : Z) : NoDup (Registers.range n).
Proof.
  unfold Registers.range. generalize (seq_NoDup (Z.to_nat n) 0).
  induction 1 as [| x l Hx Hl IH]; cbn [List.map]; constructor.
  - rewrite in_map_iff. intros (y & E & Hy).
    apply Nat2Z.inj in E. subst y. contradiction.
  - exact IH.
Qed.

(** X1. The input register [qi] and the output register [qo] are the two
    halves of the [2 * qubitCount] qubits of the simulator, in order:
    each qubit lies in exactly one of them. *)
Theorem registers_partition (qubitCount : Z) :
  Registers.qi qubitCount ++ Registers.qo qubitCount
  = Registers.range (2 * qubitCount)
  /\ NoDup (Registers.qi qubitCount ++ Registers.qo qubitCount)
  /\ length (Registers.qi qubitCount) = Z.to_nat qubitCount
  /\ length (Registers.qo qubitCount) = Z.to_nat qubitCount
  /\ (forall q, In q (Registers.qi qubitCount) <-> 0 <= q < qubitCount)
  /\ (forall q, In q (Registers.qo qubitCount)
                <-> qubitCount <= q < 2 * qubitCount).
Proof.
  unfold Registers.qi, Registers.qo. rewrite map_id.
  assert (E : Registers.range qubitCount
              ++ List.map (fun i => i + qubitCount)
                   (Registers.range qubitCount)
              = Registers.range (2 * qubitCount)).
  { destruct (Z.le_gt_cases 0 qubitCount) as [H | H].
    - replace (2 * qubitCount) with (qubitCount + qubitCount) by lia.
      rewrite range_add by lia. reflexivity.
    - unfold Registers.range.
      replace (Z.to_nat qubitCount) with 0%nat by lia.
      replace (Z.to_nat (2 * qubitCount)) with 0%nat by lia.
      reflexivity. }
  split; [exact E |]. split.
  - rewrite E. apply range_NoDup.
  - split; [apply range_length |].
    split; [rewrite length_map; apply range_length |].
    split; [intros q; apply range_In |].
    intros q. rewrite in_map_iff. split.
    + intros (i & <- & Hi). apply range_In in Hi. lia.
    + intros H. exists (q - qubitCount). split; [lia |].
      apply range_In. lia.
Qed.

(** ** The resolver on an odd number *)

Lemma gcd_pos_lt (a n : Z) : 0 < a < n -> 0 < Z.gcd a n < n.
Proof.
  intros H. pose proof (Z.gcd_nonneg a n) as G.
  pose proof (Z.gcd_divide_l a n) as D.
  assert (Z.gcd a n <> 0).
  { intros E. apply Z.gcd_eq_0_l in E. lia. }
  apply Z.divide_pos_le in D; lia.
Qed.

(** X2. On an odd [N] below [2 ^ 53] and a base [a] with [2 <= a <= N -
    2], the resolver fails, with the pair [(1, 1)], exactly when [a * a
    - 1] is co-prime to [N]; otherwise it succeeds, with the two gcds
    when they already multiply to [N] and with their product and its
    cofactor when they do not. *)
Theorem resolver_on_odd (N a y : Z) :
  Z.odd N = true -> 2 <= N < 2 ^ 53 -> 2 <= a <= N - 2 ->
  let f1 := Z.gcd (a + 1) N in
  let f2 := Z.gcd (a - 1) N in
  (Z.gcd (a * a - 1) N = 1 <-> f1 * f2 = 1)
  /\ (f1 * f2 = 1 -> Shor.resolver N a y = inr (Shor.Failed 1 1))
  /\ (f1 * f2 = N ->
      Shor.resolver N a y = inr (Shor.FactorsFound f1 f2 N))
  /\ (f1 * f2 <> 1 -> f1 * f2 <> N ->
      Shor.resolver N a y
      = inr (Shor.FactorsFound (f1 * f2) (N / (f1 * f2)) N)).
Proof.
  intros Hodd HN Ha f1 f2.
  assert (H1 : 0 < f1 < N) by (apply gcd_pos_lt; lia).
  assert (H2 : 0 < f2 < N) by (apply gcd_pos_lt; lia).
  pose proof (gcd_pair_product_divides a N Hodd) as D. fold f1 f2 in D.
  assert (Hp : 0 < f1 * f2 <= N).
  { split; [nia |]. apply Z.divide_pos_le; [lia | exact D]. }
  assert (R : Shor.resolver N a y
              = inr (Shor.verdict N
                       (if negb (f1 * f2 =? N) && (1 <? f1 * f2)
                           && (N mod (f1 * f2) =? 0)
                        then (f1 * f2, N / (f1 * f2))
                        else (f1, f2)))).
  { unfold Shor.resolver.
    rewrite (corrected_pair_exact N a y HN).
    rewrite Z.mod_small by lia. reflexivity. }
  assert (M : N mod (f1 * f2) = 0) by (apply Z.mod_divide; [lia | exact D]).
  split.
  - (* the product is one exactly when a * a - 1 is co-prime to N *)
    replace (a * a - 1) with ((a + 1) * (a - 1)) by ring.
    split.
    + intros G.
      assert (G1 : f1 = 1).
      { pose proof (Z.gcd_divide_l (a + 1) N) as [u Hu].
        pose proof (Z.gcd_divide_r (a + 1) N) as Dr. fold f1 in Hu, Dr.
        assert (Dl : (f1 | (a + 1) * (a - 1))).
        { exists (u * (a - 1)). rewrite Hu at 1. ring. }
        pose proof (Z.gcd_greatest _ _ _ Dl Dr) as Dg. rewrite G in Dg.
        apply Z.divide_1_r_nonneg in Dg; lia. }
      assert (G2 : f2 = 1).
      { pose proof (Z.gcd_divide_l (a - 1) N) as [u Hu].
        pose proof (Z.gcd_divide_r (a - 1) N) as Dr. fold f2 in Hu, Dr.
        assert (Dl : (f2 | (a + 1) * (a - 1))).
        { exists (u * (a + 1)). rewrite Hu at 1. ring. }
        pose proof (Z.gcd_greatest _ _ _ Dl Dr) as Dg. rewrite G in Dg.
        apply Z.divide_1_r_nonneg in Dg; lia. }
      rewrite G1, G2. reflexivity.
    + intros P.
      assert (G1 : f1 = 1) by nia. assert (G2 : f2 = 1) by nia.
      apply Z.coprime_mul_l; assumption.
  - split; [| split].
    + intros P. rewrite R.
      assert (G1 : f1 = 1) by nia. assert (G2 : f2 = 1) by nia.
      rewrite P. change (1 <? 1) with false.
      rewrite andb_false_r. cbn [andb]. unfold Shor.verdict.
      rewrite G1, G2. change (1 * 1) with 1.
      destruct (Z.eqb_spec 1 N) as [E | _]; [lia | reflexivity].
    + intros P. rewrite R, P, Z.eqb_refl. cbn [negb andb].
      unfold Shor.verdict. rewrite P, Z.eqb_refl.
      destruct (Z.ltb_spec 1 f1) as [_ | C]; [| nia].
      destruct (Z.ltb_spec 1 f2) as [_ | C]; [| nia].
      reflexivity.
    + intros P1 PN. rewrite R, M.
      destruct (Z.eqb_spec (f1 * f2) N) as [E | _]; [contradiction |].
      destruct (Z.ltb_spec 1 (f1 * f2)) as [_ | C]; [| lia].
      cbn [negb andb Z.eqb]. unfold Shor.verdict.
      pose proof (Z.div_mod N (f1 * f2) ltac:(lia)) as Hdm.
      rewrite M, Z.add_0_r in Hdm. rewrite <- Hdm, Z.eqb_refl.
      destruct (Z.ltb_spec 1 (f1 * f2)) as [_ | C]; [| lia].
      destruct (Z.ltb_spec 1 (N / (f1 * f2))) as [_ | C]; [| nia].
      reflexivity.
Qed.

Lemma resolver_on_odd_witness :
  Z.odd 21 = true /\ 2 <= 21 < 2 ^ 53 /\ 2 <= 5 <= 21 - 2
  /\ Shor.resolver 21 5 1 = inr (Shor.FactorsFound 3 7 21).
Proof.
  split; [reflexivity |]. split; [split; [lia | reflexivity] |].
  split; [lia |].
  pose proof (resolver_on_odd 21 5 1 eq_refl
                ltac:(split; [lia | reflexivity]) ltac:(lia))
    as (_ & _ & _ & H).
  apply H; discriminate.
Defined.

(** ** The correction pass on every positive number *)

(** An integer that is the value of a float rounds to itself. *)
Lemma round_pos_exact_high (m e : Z) :
  0 <= e -> 2 ^ 52 <= m <= 2 ^ 53 -> m * 2 ^ e < 2 ^ 1024 ->
  exists m' e',
    Float.round_pos (m * 2 ^ e) 1 = Float.Finite m' e'
    /\ Float.to_int (Float.Finite m' e') = inr (m * 2 ^ e).
Proof.
  intros He Hm Fin.
  assert (P52 : 0 < 2 ^ 52) by reflexivity.
  assert (H53 : 2 ^ 53 = 2 * 2 ^ 52) by reflexivity.
  assert (Pe : 0 < 2 ^ e) by (apply Z.pow_pos_nonneg; lia).
  destruct (round_pos_high (m * 2 ^ e) 1) as (e2 & He2 & Norm & R);
    try nia.
  rewrite !Z.mul_1_l in *.
  assert (Pe2 : 0 < 2 ^ e2) by (apply Z.pow_pos_nonneg; lia).
  assert (X : Float.rne (m * 2 ^ e) (2 ^ e2) * 2 ^ e2 = m * 2 ^ e).
  { destruct (Z.eq_dec m (2 ^ 53)) as [Em | Nm].
    - (* the significand 2 ^ 53 is 2 ^ 52 one binade up *)
      assert (E2 : e2 = e + 1).
      { destruct (Z.lt_trichotomy e2 (e + 1)) as [C | [C | C]];
          [exfalso | exact C | exfalso].
        - assert (2 ^ e2 <= 2 ^ e) by (apply Z.pow_le_mono_r; lia). nia.
        - assert (2 ^ (e + 2) <= 2 ^ e2) by (apply Z.pow_le_mono_r; lia).
          rewrite Z.pow_add_r in * by lia. change (2 ^ 2) with 4 in *.
          nia. }
      subst e2 m. rewrite Z.pow_add_r, Z.pow_1_r by lia.
      replace (2 ^ 53 * 2 ^ e) with (2 ^ 52 * (2 ^ e * 2)) by lia.
      rewrite rne_exact by lia. reflexivity.
    - assert (E2 : e2 = e).
      { destruct (Z.lt_trichotomy e2 e) as [C | [C | C]];
          [exfalso | exact C | exfalso].
        - assert (2 ^ (e2 + 1) <= 2 ^ e) by (apply Z.pow_le_mono_r; lia).
          rewrite Z.pow_add_r, Z.pow_1_r in * by lia. nia.
        - assert (2 ^ (e + 1) <= 2 ^ e2) by (apply Z.pow_le_mono_r; lia).
          rewrite Z.pow_add_r, Z.pow_1_r in * by lia. nia. }
      subst e2. rewrite rne_exact by lia. reflexivity. }
  rewrite R, X.
  destruct (Z.leb_spec (2 ^ 1024) (m * 2 ^ e)) as [C | _]; [lia |].
  eexists. eexists. split; [reflexivity |].
  rewrite to_int_up by lia. rewrite X. reflexivity.
Qed.

(** The truncation of a rounded positive quotient is an integer that
    rounds to itself. *)
Lemma to_int_round_pos_representable (num den k : Z) :
  0 < num -> 0 < den ->
  Float.to_int (Float.round_pos num den) = inr k ->
  0 <= k
  /\ (0 < k ->
      exists m e,
        Float.round_pos k 1 = Float.Finite m e
        /\ Float.to_int (Float.Finite m e) = inr k).
Proof.
  intros Hn Hd H.
  assert (P52 : 0 < 2 ^ 52) by reflexivity.
  assert (H53 : 2 ^ 53 = 2 * 2 ^ 52) by reflexivity.
  destruct (Z.lt_ge_cases num (2 ^ 52 * den)) as [Low | High].
  - destruct (round_pos_below num den Hn Hd Low) as (s & Hs & N & R).
    rewrite R in H.
    assert (Ps : 2 <= 2 ^ s).
    { change 2 with (2 ^ 1) at 1. apply Z.pow_le_mono_r; lia. }
    assert (M0 : 0 <= Float.rne (num * 2 ^ s) den)
      by (apply rne_nonneg; nia).
    assert (M1 : Float.rne (num * 2 ^ s) den <= 2 ^ 53)
      by (apply rne_le_int; lia).
    rewrite to_int_shift in H by lia. inversion H; subst k; clear H.
    set (m := Float.rne (num * 2 ^ s) den) in *.
    assert (K : 0 <= m / 2 ^ s < 2 ^ 53).
    { split; [apply Z.div_pos; lia |].
      apply Z.div_lt_upper_bound; nia. }
    split; [lia |]. intros Kpos.
    destruct (to_int_round_pos (m / 2 ^ s) 1 ltac:(lia)
                ltac:(split; [lia | reflexivity]))
      as (m' & e' & R' & T').
    exists m', e'. rewrite Z.div_1_r in T'. split; assumption.
  - destruct (round_pos_high num den Hn Hd High) as (e & He & Norm & R).
    rewrite R in H.
    assert (Pe : 0 < 2 ^ e) by (apply Z.pow_pos_nonneg; lia).
    assert (M0 : 2 ^ 52 <= Float.rne num (den * 2 ^ e)).
    { pose proof (rne_bounds num (den * 2 ^ e) ltac:(nia)) as [[F _] _].
      apply Z.le_trans with (2 := F).
      apply Z.div_le_lower_bound; nia. }
    assert (M1 : Float.rne num (den * 2 ^ e) <= 2 ^ 53)
      by (apply rne_le_int; nia).
    set (m := Float.rne num (den * 2 ^ e)) in *.
    destruct (Z.leb_spec (2 ^ 1024) (m * 2 ^ e)) as [C | Fin];
      [discriminate H |].
    rewrite to_int_up in H by lia. inversion H; subst k; clear H.
    split; [nia |]. intros _.
    apply round_pos_exact_high; lia.
Qed.

Lemma to_int_opp_round_pos (num den k : Z) :
  0 < num -> 0 < den ->
  Float.to_int (Float.opp (Float.round_pos num den)) = inr k -> k <= 0.
Proof.
  intros Hn Hd. unfold Float.round_pos.
  set (e := Float.ulp_exponent num den).
  assert (M : 0 <= Float.rne (Float.shl num (- e)) (Float.shl den e)).
  { apply rne_nonneg; [| apply shl_pos; exact Hd].
    apply Z.lt_le_incl, shl_pos. exact Hn. }
  set (m := Float.rne _ _) in *.
  destruct (2 ^ Float.emax <=? Float.shl m e); cbn [Float.opp Float.to_int];
    [discriminate |].
  intros H. inversion H; subst k; clear H.
  destruct (Z.leb_spec 0 e) as [C | C].
  - assert (0 < 2 ^ e) by (apply Z.pow_pos_nonneg; lia). nia.
  - assert (0 < 2 ^ (- e)) by (apply Z.pow_pos_nonneg; lia).
    rewrite Z.quot_opp_l by lia.
    assert (0 <= Z.quot m (2 ^ (- e))) by (apply Z.quot_pos; lia).
    lia.
Qed.

Lemma of_int_finite (n : Z) (x : Float.t) :
  Float.of_int n = inr x -> exists m e, x = Float.Finite m e.
Proof.
  unfold Float.of_int. destruct (Float.round n 1) as [m e | s |];
    intros H; inversion H. exists m, e. reflexivity.
Qed.

(** Whatever [int(1.0 * toFactor / d)] returns, when positive, is an
    integer that a float holds exactly. *)
Lemma float_quotient_representable (toFactor d k : Z) :
  Shor.float_quotient toFactor d = inr k -> 0 < k ->
  exists m e,
    Float.round_pos k 1 = Float.Finite m e
    /\ Float.to_int (Float.Finite m e) = inr k.
Proof.
  unfold Shor.float_quotient. intros H Hk.
  apply bind_returns in H. destruct H as (x & _ & H).
  apply bind_returns in H. destruct H as (y & Hy & H).
  apply bind_returns in H. destruct H as (q & Hq & H).
  apply of_int_finite in Hy. destruct Hy as (m2 & e2 & ->).
  unfold Float.truediv in Hq. cbn [Float.is_zero] in Hq.
  destruct (Z.eqb_spec m2 0) as [Z0 | NZ]; [discriminate Hq |].
  destruct (Float.mul Float.one x) as [m1 e1 | s |].
  - inversion Hq; subst q; clear Hq.
    assert (Hden : 0 < Float.shl (Z.abs m2) (e2 - e1))
      by (apply shl_pos; lia).
    set (den := Float.shl (Z.abs m2) (e2 - e1)) in *.
    destruct (Z.sgn m2 * Float.shl m1 (e1 - e2)) as [| num | num] eqn:En;
      cbn [Float.round] in H.
    + cbn in H. inversion H. lia.
    + apply to_int_round_pos_representable in H; [| lia | exact Hden].
      destruct H as [_ H]. apply H. exact Hk.
    + apply to_int_opp_round_pos in H; [lia | lia | exact Hden].
  - inversion Hq; subst q. discriminate H.
  - inversion Hq; subst q. discriminate H.
Qed.

(** The two outcomes of the correction pass. *)
Lemma composite_correction_cases (toFactor f1 f2 g1 g2 : Z) :
  0 < toFactor ->
  Shor.composite_correction toFactor (f1, f2) = inr (g1, g2) ->
  (g1, g2) = (f1, f2)
  \/ (f1 * f2 <> toFactor /\ 1 < f1 * f2 /\ (f1 * f2 | toFactor)
      /\ g1 = f1 * f2 /\ g2 = toFactor / (f1 * f2)
      /\ g1 * g2 = toFactor).
Proof.
  intros HN H. unfold Shor.composite_correction in H.
  destruct (Z.eqb_spec (f1 * f2) toFactor) as [E | E];
    cbn [negb andb] in H; [left; inversion H; reflexivity |].
  destruct (Z.ltb_spec 1 (f1 * f2)) as [L | L];
    [| left; inversion H; reflexivity].
  apply bind_returns in H. destruct H as (k & Q & H).
  destruct (Z.eqb_spec (k * f1 * f2) toFactor) as [T | T];
    [| left; inversion H; reflexivity].
  right.
  assert (Tk : toFactor = k * (f1 * f2)) by lia.
  assert (Hk : 0 < k) by nia.
  destruct (float_quotient_representable _ _ _ Q Hk) as (m & e & R & I).
  apply bind_returns in H. destruct H as (k' & Q' & H).
  assert (K : k' = k).
  { unfold Shor.int_quotient, Float.int_truediv in Q'.
    destruct (Z.eqb_spec (f1 * f2) 0) as [C | _]; [lia |].
    rewrite Z.sgn_pos, Z.abs_eq, Z.mul_1_l in Q' by lia.
    rewrite round_of_pos in Q' by lia.
    rewrite (round_pos_ratio toFactor (f1 * f2) k 1) in Q' by lia.
    rewrite R in Q'.
    change (Float.to_int (Float.Finite m e) = inr k') in Q'.
    rewrite I in Q'. inversion Q'. reflexivity. }
  subst k'. inversion H; subst g1 g2; clear H.
  split; [exact E |]. split; [exact L |].
  split; [exists k; exact Tk |].
  split; [reflexivity |].
  split; [rewrite Tk, Z.div_mul by lia; reflexivity | lia].
Qed.

(** X3. For every positive number to factor, also where the float
    quotients are inexact, the correction pass either leaves the pair as
    it is or replaces it by the product and its exact cofactor: a
    replaced pair always multiplies to [toFactor]. *)
Theorem composite_correction_sound (toFactor f1 f2 g1 g2 : Z) :
  0 < toFactor ->
  Shor.composite_correction toFactor (f1, f2) = inr (g1, g2) ->
  (g1, g2) = (f1, f2)
  \/ (f1 * f2 <> toFactor /\ 1 < f1 * f2 /\ (f1 * f2 | toFactor)
      /\ g1 = f1 * f2 /\ g2 = toFactor / (f1 * f2)
      /\ g1 * g2 = toFactor).
Proof.
  exact (composite_correction_cases toFactor f1 f2 g1 g2).
Qed.

Lemma composite_correction_sound_witness :
  0 < 2 ^ 60 * 3
  /\ Shor.composite_correction (2 ^ 60 * 3) (2, 4) = inr (8, 2 ^ 57 * 3)
  /\ 8 * (2 ^ 57 * 3) = 2 ^ 60 * 3.
Proof.
  split; [reflexivity |]. split; [reflexivity |].
  destruct (composite_correction_sound (2 ^ 60 * 3) 2 4 8 (2 ^ 57 * 3)
              eq_refl eq_refl) as [H | (_ & _ & _ & _ & _ & H)].
  - discriminate H.
  - exact H.
Defined.

(** ** The whole factoring cell *)

Lemma candidate_pair_divides (base r toFactor f1 f2 : Z) :
  Shor.candidate_pair base r toFactor = inr (f1, f2) ->
  (f1 | toFactor) /\ (f2 | toFactor).
Proof.
  unfold Shor.candidate_pair. intros H.
  apply bind_returns in H. destruct H as (x & _ & H).
  inversion H. unfold gcd. split; apply Z.gcd_divide_r.
Qed.

(** X4. Whatever the draw and whatever is measured, every number the
    cell prints for a positive [N] is a divisor of [N]: a factor
    reported by the co-primality test exceeds [1], a pair reported as
    found is a nontrivial factorization, and the two members of a pair
    reported as failed divide [N]. *)
Theorem cell_prints_divisors
    (N : Z) (u : Float.t) (measure : Z -> Z -> py Z) (out : Shor.output) :
  0 < N ->
  Shor.cell N u measure = inr out ->
  match out with
  | Shor.ChoseNonRelativePrime g => (g | N) /\ 1 < g
  | Shor.FactorsFound f1 f2 M =>
      M = N /\ nontrivial_factorization N f1 f2
  | Shor.Failed f1 f2 => (f1 | N) /\ (f2 | N)
  end.
Proof.
  intros HN H. unfold Shor.cell in H.
  apply bind_returns in H. destruct H as (base & _ & H).
  unfold Shor.factor_with, gcd in H.
  destruct (Z.eqb_spec (Z.gcd base N) 1) as [G | G]; cbn [negb] in H.
  - apply bind_returns in H. destruct H as (y & _ & H).
    unfold Shor.resolver in H.
    apply bind_returns in H. destruct H as ([g1 g2] & C & H).
    unfold Shor.corrected_pair in C.
    apply bind_returns in C. destruct C as (r & _ & C).
    apply bind_returns in C. destruct C as ([f1 f2] & P & C).
    apply candidate_pair_divides in P. destruct P as [D1 D2].
    assert (D : (g1 | N) /\ (g2 | N)).
    { destruct (composite_correction_cases N f1 f2 g1 g2 HN C)
        as [E | (_ & _ & _ & _ & _ & E)].
      - inversion E; subst. split; assumption.
      - split; [exists g2; lia | exists g1; lia]. }
    assert (O : out = Shor.verdict N (g1, g2))
      by (inversion H; reflexivity).
    subst out.
    destruct (verdict_cases N g1 g2) as [[F V] | [F V]]; rewrite V.
    + split; [reflexivity | exact F].
    + exact D.
  - inversion H; subst out; clear H.
    split; [apply Z.gcd_divide_r |].
    pose proof (gcd_le_r base N HN). lia.
Qed.

Lemma cell_prints_divisors_witness :
  0 < 21
  /\ Shor.cell 21 (Shor.random (2 ^ 50)) (fun _ _ => inr 1)
     = inr (Shor.FactorsFound 3 7 21)
  /\ nontrivial_factorization 21 3 7.
Proof.
  split; [reflexivity |]. split; [reflexivity |].
  apply (cell_prints_divisors 21 (Shor.random (2 ^ 50))
           (fun _ _ => inr 1) (Shor.FactorsFound 3 7 21)
           eq_refl eq_refl).
Defined.

(** ** The Max-Cut objective *)

Lemma bit_spec (x i : Z) :
  0 <= i -> Qaoa.bit x i = inr (Z.b2z (Z.testbit x i)).
Proof.
  intros Hi. unfold Qaoa.bit, Qaoa.rshift.
  destruct (Z.ltb_spec i 0) as [C | _]; [lia |].
  apply (f_equal (@inr exn Z)).
  change 1 with (Z.ones 1). rewrite Z.land_ones by lia.
  change (2 ^ 1) with 2. rewrite <- Z.bit0_mod.
  rewrite Z.shiftr_spec by lia. reflexivity.
Qed.

Lemma bit_negative (x i : Z) : i < 0 -> Qaoa.bit x i = inl ValueError.
Proof.
  intros Hi. unfold Qaoa.bit, Qaoa.rshift.
  destruct (Z.ltb_spec i 0) as [_ | C]; [reflexivity | lia].
Qed.

Lemma b2z_eqb (a b : bool) : negb (Z.b2z a =? Z.b2z b) = xorb a b.
Proof. destruct a, b; reflexivity. Qed.

Lemma maxcut_loop_spec (x : Z) (es : list (Z * Z)) :
  Forall (fun ij => 0 <= fst ij /\ 0 <= snd ij) es ->
  forall obj,
    Qaoa.maxcut_loop x es obj
    = inr (obj - Z.of_nat (length (filter (cut x) es))).
Proof.
  induction 1 as [| [i j] es [Hi Hj] _ IH]; intros obj.
  - cbn. f_equal. lia.
  - cbn [Qaoa.maxcut_loop fst snd] in *.
    rewrite (bit_spec x i Hi), bind_inr, (bit_spec x j Hj), bind_inr.
    rewrite IH, b2z_eqb. cbn [filter]. unfold cut at 2. cbn [fst snd].
    destruct (xorb (Z.testbit x i) (Z.testbit x j)); cbn [length];
      f_equal; lia.
Qed.

Lemma maxcut_loop_negative (x : Z) (es : list (Z * Z)) :
  Exists (fun ij => fst ij < 0 \/ snd ij < 0) es ->
  forall obj, Qaoa.maxcut_loop x es obj = inl ValueError.
Proof.
  induction es as [| [i j] es IH]; intros E obj.
  - inversion E.
  - cbn [Qaoa.maxcut_loop].
    destruct (Z.lt_ge_cases i 0) as [Ci | Ci];
      [rewrite (bit_negative x i Ci); reflexivity |].
    rewrite (bit_spec x i Ci), bind_inr.
    destruct (Z.lt_ge_cases j 0) as [Cj | Cj];
      [rewrite (bit_negative x j Cj); reflexivity |].
    rewrite (bit_spec x j Cj), bind_inr.
    apply IH. inversion E as [? ? [H | H] | ? ? H]; subst;
      cbn [fst snd] in *; [lia | lia | exact H].
Qed.

(** X5. On a graph whose node labels are non-negative, [maxcut_obj]
    returns minus the number of edges whose two ends get different bits
    of [x]: a value between minus the number of edges and zero. *)
Theorem maxcut_obj_counts_cut_edges (x : Z) (G : Qaoa.graph) :
  Forall (fun ij => 0 <= fst ij /\ 0 <= snd ij) (Qaoa.edges G) ->
  exists obj,
    Qaoa.maxcut_obj x G = inr obj
    /\ obj = - Z.of_nat (length (filter (cut x) (Qaoa.edges G)))
    /\ - Z.of_nat (length (Qaoa.edges G)) <= obj <= 0.
Proof.
  intros H. unfold Qaoa.maxcut_obj. rewrite maxcut_loop_spec by exact H.
  eexists. split; [reflexivity |]. split; [lia |].
  pose proof (filter_length_le (cut x) (Qaoa.edges G)). lia.
Qed.

Lemma maxcut_obj_counts_cut_edges_witness :
  Forall (fun ij => 0 <= fst ij /\ 0 <= snd ij) (Qaoa.edges ring4)
  /\ Qaoa.maxcut_obj 5 ring4 = inr (- 4).
Proof.
  split.
  - repeat constructor; discriminate.
  - destruct (maxcut_obj_counts_cut_edges 5 ring4) as (obj & E & V & _).
    + repeat constructor; discriminate.
    + rewrite E, V. reflexivity.
Defined.

(** X6. A negative node label on an edge makes [maxcut_obj] raise
    [ValueError] (a negative shift count). *)
Theorem maxcut_obj_negative_label (x : Z) (G : Qaoa.graph) :
  Exists (fun ij => fst ij < 0 \/ snd ij < 0) (Qaoa.edges G) ->
  Qaoa.maxcut_obj x G = inl ValueError.
Proof. intros H. apply maxcut_loop_negative. exact H. Qed.

Lemma maxcut_obj_negative_label_witness :
  Exists (fun ij => fst ij < 0 \/ snd ij < 0) [(0, 1); (1, - 1)]
  /\ Qaoa.maxcut_obj 5 (Qaoa.mkGraph [0; 1; - 1] [(0, 1); (1, - 1)])
     = inl ValueError.
Proof.
  split.
  - apply Exists_cons_tl, Exists_cons_hd. right. reflexivity.
  - apply (maxcut_obj_negative_label 5
             (Qaoa.mkGraph [0; 1; - 1] [(0, 1); (1, - 1)])).
    apply Exists_cons_tl, Exists_cons_hd. right. reflexivity.
Defined.

Lemma maxcut_obj_ext (x x' : Z) (G : Qaoa.graph) :
  Forall (fun ij => 0 <= fst ij /\ 0 <= snd ij) (Qaoa.edges G) ->
  Forall (fun ij => cut x' ij = cut x ij) (Qaoa.edges G) ->
  Qaoa.maxcut_obj x' G = Qaoa.maxcut_obj x G.
Proof.
  intros V H. unfold Qaoa.maxcut_obj.
  rewrite !maxcut_loop_spec by exact V.
  replace (filter (cut x') (Qaoa.edges G))
    with (filter (cut x) (Qaoa.edges G)); [reflexivity |].
  clear V. induction H as [| ij es E _ IH]; [reflexivity |].
  cbn [filter]. rewrite E, IH. reflexivity.
Qed.

(** X7. Swapping the two sides of the partition, that is flipping the
    bit of every node ([x ^ ((1 << n) - 1)] for node labels below [n]),
    leaves the objective unchanged. *)
Theorem maxcut_obj_complement (x n : Z) (G : Qaoa.graph) :
  Forall (fun ij => 0 <= fst ij < n /\ 0 <= snd ij < n) (Qaoa.edges G) ->
  Qaoa.maxcut_obj (Z.lxor x (Z.shiftl 1 n - 1)) G = Qaoa.maxcut_obj x G.
Proof.
  intros H. apply maxcut_obj_ext.
  - eapply Forall_impl; [| exact H]. intros ij [A B]. lia.
  - eapply Forall_impl; [| exact H]. intros [i j] [A B].
    cbn [fst snd] in *. unfold cut. cbn [fst snd].
    assert (Hn : 0 <= n) by lia.
    rewrite Z.shiftl_1_l, Z.sub_1_r, <- Z.ones_equiv.
    rewrite !Z.lxor_spec, !Z.ones_spec_low by lia.
    destruct (Z.testbit x i), (Z.testbit x j); reflexivity.
Qed.

Lemma maxcut_obj_complement_witness :
  Forall (fun ij => 0 <= fst ij < 4 /\ 0 <= snd ij < 4) (Qaoa.edges ring4)
  /\ Qaoa.maxcut_obj (Z.lxor 6 (Z.shiftl 1 4 - 1)) ring4
     = Qaoa.maxcut_obj 6 ring4.
Proof.
  assert (H : Forall (fun ij => 0 <= fst ij < 4 /\ 0 <= snd ij < 4)
                (Qaoa.edges ring4)).
  { repeat constructor; cbn; lia. }
  split; [exact H |]. apply (maxcut_obj_complement 6 4 ring4 H).
Defined.

(** X8. Only the bits of the nodes count: bits of [x] from position [n]
    on, and the sign of [x], do not change the objective. *)
Theorem maxcut_obj_low_bits (x n : Z) (G : Qaoa.graph) :
  Forall (fun ij => 0 <= fst ij < n /\ 0 <= snd ij < n) (Qaoa.edges G) ->
  Qaoa.maxcut_obj (x mod 2 ^ n) G = Qaoa.maxcut_obj x G.
Proof.
  intros H. apply maxcut_obj_ext.
  - eapply Forall_impl; [| exact H]. intros ij [A B]. lia.
  - eapply Forall_impl; [| exact H]. intros [i j] [A B].
    cbn [fst snd] in *. unfold cut. cbn [fst snd].
    rewrite !Z.mod_pow2_bits_low by lia. reflexivity.
Qed.

Lemma maxcut_obj_low_bits_witness :
  Forall (fun ij => 0 <= fst ij < 4 /\ 0 <= snd ij < 4) (Qaoa.edges ring4)
  /\ Qaoa.maxcut_obj (21 mod 2 ^ 4) ring4 = Qaoa.maxcut_obj 21 ring4.
Proof.
  assert (H : Forall (fun ij => 0 <= fst ij < 4 /\ 0 <= snd ij < 4)
                (Qaoa.edges ring4)).
  { repeat constructor; cbn; lia. }
  split; [exact H |]. apply (maxcut_obj_low_bits 21 4 ring4 H).
Defined.

(** ** The expectation value *)

Lemma maxcut_obj_objective (x : Z) (G : Qaoa.graph) :
  valid_edges G -> Qaoa.maxcut_obj x G = inr (objective G x).
Proof.
  intros V. unfold Qaoa.maxcut_obj, objective.
  rewrite maxcut_loop_spec by exact V. reflexivity.
Qed.

Lemma expectation_loop_spec (G : Qaoa.graph) (items : list (Z * Z)) :
  valid_edges G ->
  forall avg sum_count,
    Qaoa.expectation_loop G items avg sum_count
    = inr (avg + weighted G items, sum_count + total items).
Proof.
  intros V. induction items as [| [k v] items IH]; intros avg sum_count.
  - cbn. rewrite !Z.add_0_r. reflexivity.
  - cbn [Qaoa.expectation_loop].
    rewrite maxcut_obj_objective, bind_inr, IH by exact V.
    unfold weighted, total. cbn [List.map Zsum fold_right fst snd].
    apply (f_equal (@inr exn (Z * Z))). apply f_equal2; unfold Zsum; lia.
Qed.

Lemma increment_sums (G : Qaoa.graph) (k : Z) (c : list (Z * Z)) :
  weighted G (Qaoa.increment k c) = weighted G c + objective G k
  /\ total (Qaoa.increment k c) = total c + 1.
Proof.
  unfold weighted, total.
  induction c as [| [k' v] c [IH1 IH2]]; cbn [Qaoa.increment].
  - cbn. lia.
  - destruct (Z.eqb_spec k' k) as [-> | _]; unfold Zsum in *;
      cbn [List.map fold_right fst snd] in *; lia.
Qed.

Lemma Counter_sums (G : Qaoa.graph) (outcomes : list Z) :
  weighted G (Qaoa.Counter outcomes) = Zsum (List.map (objective G) outcomes)
  /\ total (Qaoa.Counter outcomes) = Z.of_nat (length outcomes).
Proof.
  unfold Qaoa.Counter.
  assert (H : forall c,
             weighted G (fold_left (fun c k => Qaoa.increment k c) outcomes c)
             = weighted G c + Zsum (List.map (objective G) outcomes)
             /\ total (fold_left (fun c k => Qaoa.increment k c) outcomes c)
                = total c + Z.of_nat (length outcomes)).
  { induction outcomes as [| o outcomes IH]; intros c.
    - cbn [fold_left List.map length].
      change (Zsum []) with 0. lia.
    - cbn [fold_left List.map length].
      destruct (IH (Qaoa.increment o c)) as [E1 E2]. rewrite E1, E2.
      destruct (increment_sums G o c) as [F1 F2]. rewrite F1, F2.
      unfold Zsum. cbn [fold_right]. lia. }
  destruct (H []) as [E1 E2]. rewrite E1, E2.
  unfold weighted, total, Zsum. cbn [List.map fold_right]. lia.
Qed.

Lemma Counter_positive (outcomes : list Z) :
  Forall (fun kv => 1 <= snd kv) (Qaoa.Counter outcomes).
Proof.
  unfold Qaoa.Counter.
  assert (I : forall k c, Forall (fun kv => 1 <= snd kv) c ->
              Forall (fun kv : Z * Z => 1 <= snd kv) (Qaoa.increment k c)).
  { intros k c H. induction H as [| [k' v] c Hv Hc IH]; cbn [Qaoa.increment].
    - repeat constructor. cbn. lia.
    - destruct (k' =? k); constructor; cbn [snd] in *;
        first [lia | assumption]. }
  assert (H : forall c, Forall (fun kv => 1 <= snd kv) c ->
              Forall (fun kv : Z * Z => 1 <= snd kv)
                (fold_left (fun c k => Qaoa.increment k c) outcomes c)).
  { induction outcomes as [| o outcomes IH]; intros c Hc; [exact Hc |].
    cbn [fold_left]. apply IH, I, Hc. }
  apply H. constructor.
Qed.

(** X9. Counting the outcomes first does not change the mean:
    [compute_expectation] on the [Counter] of a list of measured
    integers is the sum of their objectives divided by their number,
    rounded once. *)
Theorem compute_expectation_of_Counter
    (G : Qaoa.graph) (outcomes : list Z) :
  valid_edges G ->
  Qaoa.compute_expectation (Qaoa.Counter outcomes) G
  = Float.int_truediv (Zsum (List.map (objective G) outcomes))
      (Z.of_nat (length outcomes)).
Proof.
  intros V. unfold Qaoa.compute_expectation.
  rewrite expectation_loop_spec by exact V.
  destruct (Counter_sums G outcomes) as [-> ->]. reflexivity.
Qed.

Lemma ring4_valid : valid_edges ring4.
Proof. repeat constructor; discriminate. Qed.

Lemma compute_expectation_of_Counter_witness :
  valid_edges ring4
  /\ Qaoa.compute_expectation (Qaoa.Counter [5; 3; 5; 0; 10; 3]) ring4
     = Float.int_truediv (- 16) 6.
Proof.
  split; [exact ring4_valid |].
  apply (compute_expectation_of_Counter ring4 [5; 3; 5; 0; 10; 3]
           ring4_valid).
Defined.


(** X10. When the counts add up to zero, in particular on an empty
    dictionary, [compute_expectation] raises [ZeroDivisionError]. *)
Theorem compute_expectation_no_counts
    (G : Qaoa.graph) (counts : list (Z * Z)) :
  valid_edges G -> total counts = 0 ->
  Qaoa.compute_expectation counts G = inl ZeroDivisionError.
Proof.
  intros V T. unfold Qaoa.compute_expectation.
  rewrite expectation_loop_spec by exact V. rewrite T. reflexivity.
Qed.

Lemma compute_expectation_no_counts_witness :
  valid_edges ring4 /\ total [] = 0
  /\ Qaoa.compute_expectation [] ring4 = inl ZeroDivisionError.
Proof.
  split; [exact ring4_valid |]. split; [reflexivity |].
  apply (compute_expectation_no_counts ring4 [] ring4_valid eq_refl).
Defined.


Lemma int_truediv_between (a b lo hi : Z) :
  0 < b -> lo * b <= a <= hi * b ->
  - 2 ^ 52 < lo <= 0 -> 0 <= hi < 2 ^ 52 ->
  exists x, Float.int_truediv a b = inr x /\ float_between x lo hi.
Proof.
  intros Hb Ha Hlo Hhi. unfold Float.int_truediv.
  destruct (Z.eqb_spec b 0) as [C | _]; [lia |].
  rewrite Z.sgn_pos, Z.abs_eq, Z.mul_1_l by lia.
  assert (P52 : 0 < 2 ^ 52) by reflexivity.
  destruct a as [| a | a]; cbn [Float.round].
  - eexists. split; [reflexivity |]. exists 0, 0.
    split; [reflexivity |]. cbn. lia.
  - destruct (round_pos_below (Z.pos a) b) as (s & Hs & N & R);
      try lia; [nia |].
    rewrite R. eexists. split; [reflexivity |].
    eexists. eexists. split; [reflexivity |].
    assert (Ps : 0 < 2 ^ s) by (apply Z.pow_pos_nonneg; lia).
    rewrite Z.opp_involutive. rewrite (shl_up 1) by lia.
    rewrite shl_down by lia.
    assert (0 <= Float.rne (Z.pos a * 2 ^ s) b) by (apply rne_nonneg; nia).
    assert (Float.rne (Z.pos a * 2 ^ s) b <= hi * 2 ^ s)
      by (apply rne_le_int; nia).
    nia.
  - change (- Z.neg a) with (Z.pos a).
    assert (Ha' : Z.pos a <= - lo * b) by lia.
    destruct (round_pos_below (Z.pos a) b) as (s & Hs & N & R);
      try lia; [nia |].
    rewrite R. cbn [Float.opp]. eexists. split; [reflexivity |].
    eexists. eexists. split; [reflexivity |].
    assert (Ps : 0 < 2 ^ s) by (apply Z.pow_pos_nonneg; lia).
    rewrite Z.opp_involutive. rewrite (shl_up 1) by lia.
    rewrite shl_down by lia.
    assert (0 <= Float.rne (Z.pos a * 2 ^ s) b) by (apply rne_nonneg; nia).
    assert (Float.rne (Z.pos a * 2 ^ s) b <= - lo * 2 ^ s)
      by (apply rne_le_int; nia).
    nia.
Qed.

Lemma weighted_bounds (G : Qaoa.graph) (items : list (Z * Z)) :
  Forall (fun kv => 0 <= snd kv) items ->
  - Z.of_nat (length (Qaoa.edges G)) * total items
  <= weighted G items <= 0 * total items.
Proof.
  unfold weighted, total.
  unfold Zsum.
  induction 1 as [| [k v] items Hv _ IH];
    cbn [List.map fold_right fst snd] in *; [lia |].
  assert (- Z.of_nat (length (Qaoa.edges G)) <= objective G k <= 0).
  { unfold objective.
    pose proof (filter_length_le (cut k) (Qaoa.edges G)). lia. }
  nia.
Qed.

(** The mean of the objective lies in the range of the objective. *)
Lemma compute_expectation_bounds
    (G : Qaoa.graph) (counts : list (Z * Z)) :
  valid_edges G ->
  Z.of_nat (length (Qaoa.edges G)) < 2 ^ 52 ->
  Forall (fun kv => 0 <= snd kv) counts ->
  0 < total counts ->
  exists x,
    Qaoa.compute_expectation counts G = inr x
    /\ float_between x (- Z.of_nat (length (Qaoa.edges G))) 0.
Proof.
  intros V HE Hc HT. unfold Qaoa.compute_expectation.
  rewrite expectation_loop_spec by exact V.
  cbn [bind Monad_either]. rewrite !Z.add_0_l.
  apply int_truediv_between; try lia.
  apply weighted_bounds. exact Hc.
Qed.

(** X11. On counts that are non-negative and not all zero,
    [compute_expectation] returns a finite float between minus the
    number of edges and zero: rounding the mean never takes it out of
    the range of the objective. *)
Theorem compute_expectation_range
    (G : Qaoa.graph) (counts : list (Z * Z)) :
  valid_edges G ->
  Z.of_nat (length (Qaoa.edges G)) < 2 ^ 52 ->
  Forall (fun kv => 0 <= snd kv) counts ->
  0 < total counts ->
  exists x,
    Qaoa.compute_expectation counts G = inr x
    /\ float_between x (- Z.of_nat (length (Qaoa.edges G))) 0.
Proof.
  exact (compute_expectation_bounds G counts).
Qed.

Lemma compute_expectation_range_witness :
  valid_edges ring4
  /\ Z.of_nat (length (Qaoa.edges ring4)) < 2 ^ 52
  /\ Forall (fun kv => 0 <= snd kv) [(5, 300); (3, 12); (10, 200)]
  /\ 0 < total [(5, 300); (3, 12); (10, 200)]
  /\ exists x,
      Qaoa.compute_expectation [(5, 300); (3, 12); (10, 200)] ring4 = inr x
      /\ float_between x (- Z.of_nat (length (Qaoa.edges ring4))) 0.
Proof.
  assert (C : Forall (fun kv : Z * Z => 0 <= snd kv)
                [(5, 300); (3, 12); (10, 200)]).
  { repeat constructor; discriminate. }
  split; [exact ring4_valid |]. split; [reflexivity |].
  split; [exact C |]. split; [reflexivity |].
  apply (compute_expectation_range ring4 [(5, 300); (3, 12); (10, 200)]
           ring4_valid eq_refl C eq_refl).
Defined.


(** ** The QAOA circuit *)

Lemma problem_unitary_spec (es : list (Z * Z)) (gamma : list Float.t)
    (irep : nat) (g : Float.t) :
  nth_error gamma irep = Some g ->
  Qaoa.problem_unitary es gamma irep
  = Some (flat_map
            (fun e => [Qaoa.mcx [fst e] (snd e);
                       Qaoa.r Qaoa.PauliZ (Qaoa.twice g) (snd e);
                       Qaoa.mcx [fst e] (snd e)])
            es).
Proof.
  intros H. induction es as [| e es IH]; cbn [Qaoa.problem_unitary].
  - reflexivity.
  - rewrite H, IH. reflexivity.
Qed.

Lemma mixer_unitary_spec (qs : list Z) (beta : list Float.t)
    (irep : nat) (bt : Float.t) :
  nth_error beta irep = Some bt ->
  Qaoa.mixer_unitary qs beta irep
  = Some (List.map (fun i => Qaoa.r Qaoa.PauliX (Qaoa.twice bt) i) qs).
Proof.
  intros H. induction qs as [| q qs IH]; cbn [Qaoa.mixer_unitary].
  - reflexivity.
  - rewrite H, IH. reflexivity.
Qed.

Lemma problem_unitary_length (es : list (Z * Z)) (g : Float.t) :
  length
    (flat_map
       (fun e => [Qaoa.mcx [fst e] (snd e);
                  Qaoa.r Qaoa.PauliZ (Qaoa.twice g) (snd e);
                  Qaoa.mcx [fst e] (snd e)])
       es)
  = (3 * length es)%nat.
Proof.
  induction es as [| e es IH]; cbn [flat_map length app].
  - reflexivity.
  - rewrite IH. lia.
Qed.

Lemma problem_unitary_in_range (es : list (Z * Z)) (g : Float.t) (n : Z) :
  Forall (fun ij => 0 <= fst ij < n /\ 0 <= snd ij < n) es ->
  Forall (call_in_range n)
    (flat_map
       (fun e => [Qaoa.mcx [fst e] (snd e);
                  Qaoa.r Qaoa.PauliZ (Qaoa.twice g) (snd e);
                  Qaoa.mcx [fst e] (snd e)])
       es).
Proof.
  induction 1 as [| e es [A B] _ IH]; cbn [flat_map app]; [constructor |].
  repeat (constructor; [cbn [call_in_range]; auto |]).
  exact IH.
Qed.

Lemma repetitions_spec (G : Qaoa.graph) (beta gamma : list Float.t)
    (todo : nat) :
  let n := length (Qaoa.nodes G) in
  forall irep,
    (irep + todo <= length beta)%nat ->
    (irep + todo <= length gamma)%nat ->
    exists calls,
      Qaoa.repetitions G (Z.of_nat n) beta gamma irep todo = Some calls
      /\ length calls = (todo * (3 * length (Qaoa.edges G) + n))%nat
      /\ (edges_in_range G ->
          Forall (call_in_range (Z.of_nat n)) calls).
Proof.
  intros n. induction todo as [| todo IH]; intros irep Hb Hg.
  - exists []. split; [reflexivity |]. split; [reflexivity |].
    intros _. constructor.
  - cbn [Qaoa.repetitions].
    destruct (nth_error gamma irep) as [g |] eqn:Eg;
      [| apply nth_error_None in Eg; lia].
    destruct (nth_error beta irep) as [bt |] eqn:Eb;
      [| apply nth_error_None in Eb; lia].
    rewrite (problem_unitary_spec _ _ _ _ Eg).
    rewrite (mixer_unitary_spec _ _ _ _ Eb).
    destruct (IH (S irep) ltac:(lia) ltac:(lia)) as (rest & -> & L & F).
    eexists. split; [reflexivity |]. split.
    + rewrite !length_app, length_map, range_length, L.
      rewrite Nat2Z.id. fold n.
      rewrite problem_unitary_length. lia.
    + intros R. apply Forall_app. split; [| apply Forall_app; split].
      * apply problem_unitary_in_range. exact R.
      * apply Forall_forall. intros c Hc. apply in_map_iff in Hc.
        destruct Hc as (q & <- & Hq). apply range_In in Hq. exact Hq.
      * apply F. exact R.
Qed.

(** The calls of the circuit: how many, and on which qubits. *)
Lemma qaoa_circuit_calls (G : Qaoa.graph) (theta : list Float.t) :
  let n := length (Qaoa.nodes G) in
  let p := (length theta / 2)%nat in
  exists calls,
    Qaoa.qaoa_circuit G theta = Some calls
    /\ length calls = (n + p * (3 * length (Qaoa.edges G) + n))%nat
    /\ (edges_in_range G -> Forall (call_in_range (Z.of_nat n)) calls).
Proof.
  intros n p. unfold Qaoa.qaoa_circuit. fold n p.
  assert (Hp : (p <= length theta)%nat).
  { subst p. apply Nat.Div0.div_le_upper_bound. lia. }
  assert (Hp2 : (p + p <= length theta)%nat).
  { subst p. pose proof (Nat.Div0.mul_div_le (length theta) 2). lia. }
  destruct (repetitions_spec G (firstn p theta) (skipn p theta) p 0%nat)
    as (reps & R & L & F).
  - rewrite length_firstn. lia.
  - rewrite length_skipn. lia.
  - fold n in R. rewrite R. eexists. split; [reflexivity |]. split.
    + rewrite length_app, length_map, range_length, L, Nat2Z.id. lia.
    + intros Hr. apply Forall_app. split; [| apply F; exact Hr].
      apply Forall_forall. intros c Hc. apply in_map_iff in Hc.
      destruct Hc as (q & <- & Hq). apply range_In in Hq. exact Hq.
Qed.


(** X13. The objective function handed to the optimizer: it never raises
    [IndexError]; when the simulator returns no outcome (zero shots) it
    raises [ZeroDivisionError], and otherwise it returns a finite float
    between minus the number of edges and zero. *)
Theorem execute_circ_range
    (G : Qaoa.graph) (shots : Z)
    (measure_shots : list Qaoa.call -> list Z -> Z -> list Z)
    (theta : list Float.t) :
  valid_edges G ->
  Z.of_nat (length (Qaoa.edges G)) < 2 ^ 52 ->
  exists calls,
    Qaoa.qaoa_circuit G theta = Some calls
    /\ let outcomes :=
         measure_shots calls
           (Registers.range (Z.of_nat (length (Qaoa.nodes G)))) shots in
       (outcomes = [] ->
        Qaoa.execute_circ G shots measure_shots theta
        = Some (inl ZeroDivisionError))
       /\ (outcomes <> [] ->
           exists x,
             Qaoa.execute_circ G shots measure_shots theta = Some (inr x)
             /\ float_between x (- Z.of_nat (length (Qaoa.edges G))) 0).
Proof.
  intros V HE.
  destruct (qaoa_circuit_calls G theta) as (calls & C & _).
  exists calls. split; [exact C |]. intros outcomes.
  unfold Qaoa.execute_circ, Qaoa.run_qaoa_circ. rewrite C. fold outcomes.
  split.
  - intros E. rewrite E. reflexivity.
  - intros NE.
    assert (Hc : Forall (fun kv => 0 <= snd kv) (Qaoa.Counter outcomes)).
    { eapply Forall_impl; [| apply Counter_positive].
      intros kv H. cbn beta in H. lia. }
    assert (Ht : 0 < total (Qaoa.Counter outcomes)).
    { destruct (Counter_sums G outcomes) as [_ T]. rewrite T.
      destruct outcomes; [contradiction | cbn [length]; lia]. }
    destruct (compute_expectation_bounds G (Qaoa.Counter outcomes)
                V HE Hc Ht) as (x & Hx & B).
    exists x. rewrite Hx. split; [reflexivity | exact B].
Qed.

Lemma execute_circ_range_witness :
  valid_edges ring4
  /\ Z.of_nat (length (Qaoa.edges ring4)) < 2 ^ 52
  /\ exists x,
      Qaoa.execute_circ ring4 4 (fun _ _ _ => [5; 10; 3; 5])
        [Float.Finite 1 0; Float.Finite 1 0]
      = Some (inr x)
      /\ float_between x (- Z.of_nat (length (Qaoa.edges ring4))) 0.
Proof.
  split; [exact ring4_valid |]. split; [reflexivity |].
  destruct (execute_circ_range ring4 4 (fun _ _ _ => [5; 10; 3; 5])
              [Float.Finite 1 0; Float.Finite 1 0] ring4_valid eq_refl)
    as (calls & _ & _ & H).
  apply H. discriminate.
Defined.


(** ** The expectation value of the error-mitigation notebook *)

(** X15. When the count of the key is between [0] and [shots], the value
    is a finite float between [0] and [1]. *)
Theorem expectation_value_range
    (counts : Mitiq.counts_dict) (key : String.string) (shots v : Z) :
  Mitiq.lookup key counts = Some v -> 0 <= v <= shots -> 0 < shots ->
  exists x,
    Mitiq.expectation_value counts key shots = inr x
    /\ float_between x 0 1.
Proof.
  intros L Hv Hs. unfold Mitiq.expectation_value. rewrite L.
  apply int_truediv_between; try lia.
Qed.

Lemma expectation_value_range_witness :
  Mitiq.lookup Keys.all_one [(Keys.all_zero, 999000); (Keys.all_one, 1000)]
  = Some 1000
  /\ 0 <= 1000 <= 10 ^ 6 /\ 0 < 10 ^ 6
  /\ exists x,
      Mitiq.expectation_value
        [(Keys.all_zero, 999000); (Keys.all_one, 1000)] Keys.all_one (10 ^ 6)
      = inr x
      /\ float_between x 0 1.
Proof.
  split; [reflexivity |].
  split; [split; discriminate |]. split; [reflexivity |].
  apply (expectation_value_range
           [(Keys.all_zero, 999000); (Keys.all_one, 1000)] Keys.all_one
           (10 ^ 6) 1000 eq_refl).
  - split; discriminate.
  - reflexivity.
Defined.


Lemma max_fold_in (l : Mitiq.counts_dict) :
  forall k,
    let best :=
      fold_left
        (fun best kv => if String.ltb best (fst kv) then fst kv else best)
        l k in
    best = k \/ In best (List.map fst l).
Proof.
  induction l as [| [k' v] l IH]; intros k; cbn [fold_left List.map fst].
  - left. reflexivity.
  - destruct (String.ltb k k').
    + destruct (IH k') as [E | I]; right; [left; symmetry; exact E |].
      right. exact I.
    + destruct (IH k) as [E | I]; [left; exact E | right; right; exact I].
Qed.

Lemma lookup_in (key : String.string) (counts : Mitiq.counts_dict) :
  In key (List.map fst counts) -> exists v, Mitiq.lookup key counts = Some v.
Proof.
  induction counts as [| [k v] counts IH]; cbn [List.map fst In Mitiq.lookup].
  - contradiction.
  - intros [E | I].
    + subst k. rewrite String.eqb_refl. exists v. reflexivity.
    + destruct (String.eqb k key); [exists v; reflexivity | apply IH, I].
Qed.

(** X16. In the cell of the ideal run the key is taken from the same
    [counts], so the guard never fails: on a non-empty dictionary the
    value is [counts[key] / shots] for a key of the dictionary, and an
    empty dictionary makes [max] raise [ValueError]. *)
Theorem ideal_value_uses_a_key (counts : Mitiq.counts_dict) (shots : Z) :
  (counts = [] -> Mitiq.ideal_value counts shots = inl ValueError)
  /\ (counts <> [] ->
      exists key v,
        Mitiq.max_key counts = inr key
        /\ In key (List.map fst counts)
        /\ Mitiq.lookup key counts = Some v
        /\ Mitiq.ideal_value counts shots = Float.int_truediv v shots).
Proof.
  split.
  - intros ->. reflexivity.
  - intros NE. destruct counts as [| [k v0] counts]; [contradiction |].
    unfold Mitiq.ideal_value, Mitiq.max_key.
    set (best := fold_left _ counts k).
    assert (I : In best (List.map fst ((k, v0) :: counts))).
    { cbn [List.map fst In]. subst best.
      destruct (max_fold_in counts k) as [E | I];
        [left; symmetry; exact E | right; exact I]. }
    destruct (lookup_in best _ I) as (v & L).
    exists best, v. split; [reflexivity |]. split; [exact I |].
    split; [exact L |].
    change (Mitiq.expectation_value ((k, v0) :: counts) best shots
            = Float.int_truediv v shots).
    unfold Mitiq.expectation_value. rewrite L. reflexivity.
Qed.
